(** * node-fetch data layer: header list and body engine

    A shallow embedding of [src/headers.js] and of the Body mixin
    ([body.js]), followed by the properties of the two components.

    JavaScript strings are sequences of UTF-16 code units, buffers are
    sequences of bytes.  Functions that may throw return a [completion]. *)

From Stdlib Require Import List NArith Bool Strings.String Strings.Ascii Strings.Byte Lia.
From Stdlib Require Import Sorting.Sorted.
Import ListNotations.

Set Implicit Arguments.

(* ================================================================== *)
(** ** JavaScript strings *)

Module JS.

(** A string is the list of its UTF-16 code units. *)
Definition jsstring := list N.

(** Literal helper: the code units of an ASCII/Latin-1 literal. *)
Definition lit (s : string) : jsstring :=
  List.map N_of_ascii (list_ascii_of_string s).

Definition unit_eqb (a b : N) : bool := N.eqb a b.

Fixpoint str_eqb (a b : jsstring) : bool :=
  match a, b with
  | [], [] => true
  | x :: a', y :: b' => N.eqb x y && str_eqb a' b'
  | _, _ => false
  end.

(** Comparison "by code units", the order [URLSearchParams.prototype.sort]
    and the relational operators use. *)
Fixpoint compare_units (a b : jsstring) : comparison :=
  match a, b with
  | [], [] => Eq
  | [], _ :: _ => Lt
  | _ :: _, [] => Gt
  | x :: a', y :: b' =>
      match N.compare x y with
      | Eq => compare_units a' b'
      | c => c
      end
  end.

Definition str_le (a b : jsstring) : Prop := compare_units a b <> Gt.
Definition str_lt (a b : jsstring) : Prop := compare_units a b = Lt.
Definition str_leb (a b : jsstring) : bool :=
  match compare_units a b with Gt => false | _ => true end.

Local Open Scope N_scope.

Definition in_range (lo hi c : N) : bool := N.leb lo c && N.leb c hi.

(** [String.prototype.toLowerCase] on one code unit.  The mapping is the
    Unicode one for Basic Latin and Latin-1 Supplement (U+0000..U+00FF),
    the only code units a validated header name or value can hold; other
    code units are left as they are. *)
Definition lower_unit (c : N) : N :=
  if in_range 65 90 c then c + 32
  else if in_range 192 222 c && negb (N.eqb c 215) then c + 32
  else c.

Definition toLowerCase (s : jsstring) : jsstring := List.map lower_unit s.

(** Canonicalisation of a code unit under the [i] flag of a regular
    expression without the [u] flag: the upper-case mapping, which never
    sends a code unit above 127 to one below 128.  Against an ASCII
    pattern only the ASCII part of the mapping is observable. *)
Definition canonicalize (c : N) : N :=
  if in_range 97 122 c then c - 32 else c.

(** [Array.prototype.join]. *)
Fixpoint join (sep : jsstring) (l : list jsstring) : jsstring :=
  match l with
  | [] => []
  | [x] => x
  | x :: rest => x ++ sep ++ join sep rest
  end.

Fixpoint startsWith (s p : jsstring) {struct p} : bool :=
  match p, s with
  | [], _ => true
  | _ :: _, [] => false
  | y :: p', x :: s' => N.eqb x y && startsWith s' p'
  end.

(** [String.prototype.includes]. *)
Fixpoint includes (s sub : jsstring) : bool :=
  startsWith s sub ||
  match s with
  | [] => false
  | _ :: s' => includes s' sub
  end.

Definition is_lead (c : N) : bool := in_range 55296 56319 c.
Definition is_trail (c : N) : bool := in_range 56320 57343 c.

(** Conversion to a USVString (scalar value string): a surrogate that is
    not part of a pair becomes U+FFFD.  [URLSearchParams] applies it to
    every name and value it stores. *)
Fixpoint toUSVString (s : jsstring) : jsstring :=
  match s with
  | [] => []
  | c :: rest =>
      if is_lead c then
        match rest with
        | d :: rest' =>
            if is_trail d then c :: d :: toUSVString rest'
            else 65533 :: toUSVString rest
        | [] => [65533]
        end
      else if is_trail c then 65533 :: toUSVString rest
      else c :: toUSVString rest
  end.

Local Close Scope N_scope.

End JS.
Import JS.

(* ================================================================== *)
(** ** Errors and completions *)

(** The [type] argument of [FetchError]. *)
Inductive fetch_error_type : Type :=
| max_size        (* 'max-size' *)
| body_timeout    (* 'body-timeout' *)
| system.         (* 'system' *)

(** The messages of the errors the two components raise themselves; the
    interpolated url is not part of the model. *)
Inductive message : Type :=
| not_a_legal_header_name (name : jsstring)
| not_a_legal_header_value (value : jsstring)
| pair_must_be_a_tuple
| body_used_already
| cannot_clone_after_use
| other_message (text : string).

#[warnings="-register-all"]
Inductive js_error : Type :=
| TypeError (m : message)
| Error (m : message)
| RangeError (m : message)
| SyntaxError (m : message)
| AbortError
| FetchError (type : fetch_error_type) (systemError : option js_error).

(** The error kinds of the specification, as the code raises them. *)
Definition InvalidHeaderName (name : jsstring) : js_error :=
  TypeError (not_a_legal_header_name name).
Definition InvalidHeaderValue (value : jsstring) : js_error :=
  TypeError (not_a_legal_header_value value).
Definition BodyAlreadyConsumed : js_error := TypeError body_used_already.
Definition CloneAfterConsumption : js_error := Error cannot_clone_after_use.
Definition BodyTimeout : js_error := FetchError body_timeout None.
Definition BodySystemError (cause : js_error) : js_error :=
  FetchError system (Some cause).

(** The result of running code that may throw. *)
Inductive completion (A : Type) : Type :=
| Normal (a : A)
| Throw (e : js_error).
Arguments Normal {A} a.
Arguments Throw {A} e.

Definition bind {A B : Type} (c : completion A) (k : A -> completion B)
  : completion B :=
  match c with
  | Normal a => k a
  | Throw e => Throw e
  end.

Notation "x <- c ;; k" := (bind c (fun x => k))
  (at level 61, c at next level, right associativity).
Notation "c ;;; k" := (bind c (fun _ => k))
  (at level 61, right associativity).

(** [Array.prototype.map] with a callback that may throw: the first
    exception, in index order, ends the loop. *)
Fixpoint mapM {A B : Type} (f : A -> completion B) (l : list A)
  : completion (list B) :=
  match l with
  | [] => Normal []
  | x :: rest => y <- f x ;; ys <- mapM f rest ;; Normal (y :: ys)
  end.

(* ================================================================== *)
(** ** The ordered multi-map underneath: URLSearchParams *)

Module URLSearchParams.

Definition t := list (jsstring * jsstring).

Definition new (init : list (jsstring * jsstring)) : t :=
  List.map (fun p => (toUSVString (fst p), toUSVString (snd p))) init.

Definition append (l : t) (name value : jsstring) : t :=
  l ++ [(toUSVString name, toUSVString value)].

Definition delete (l : t) (name : jsstring) : t :=
  List.filter (fun p => negb (str_eqb (fst p) (toUSVString name))) l.

Definition has (l : t) (name : jsstring) : bool :=
  List.existsb (fun p => str_eqb (fst p) (toUSVString name)) l.

Definition getAll (l : t) (name : jsstring) : list jsstring :=
  List.map snd
    (List.filter (fun p => str_eqb (fst p) (toUSVString name)) l).

(** [set]: the first pair of that name takes the value and the others are
    removed; without such a pair the new one is appended. *)
Fixpoint set_first (l : t) (name value : jsstring) : t :=
  match l with
  | [] => []
  | p :: rest =>
      if str_eqb (fst p) name
      then (fst p, value)
             :: List.filter (fun q => negb (str_eqb (fst q) name)) rest
      else p :: set_first rest name value
  end.

Definition set (l : t) (name value : jsstring) : t :=
  if has l name
  then set_first l (toUSVString name) (toUSVString value)
  else append l name value.

(** [sort]: by name, comparing code units; pairs of equal names keep
    their relative order. *)
Fixpoint insert (p : jsstring * jsstring) (l : t) : t :=
  match l with
  | [] => [p]
  | q :: rest =>
      if str_leb (fst p) (fst q) then p :: q :: rest
      else q :: insert p rest
  end.

Fixpoint sort (l : t) : t :=
  match l with
  | [] => []
  | p :: rest => insert p (sort rest)
  end.

Definition keys (l : t) : list jsstring := List.map fst l.

End URLSearchParams.

(** The keys of [new Set(iterable)], in insertion order: a value already
    in the set is not added again. *)
Definition Set_add (s : list jsstring) (x : jsstring) : list jsstring :=
  if List.existsb (str_eqb x) s then s else s ++ [x].

Definition Set_keys (iterable : list jsstring) : list jsstring :=
  List.fold_left Set_add iterable [].

(* ================================================================== *)
(** ** headers.js *)

Module Headers.

Definition code (a : ascii) : N := N_of_ascii a.
Definition is_char (a : ascii) (c : N) : bool := N.eqb c (code a).

(** The class [\w] of a regular expression. *)
Definition word_unit (c : N) : bool :=
  in_range (code "0") (code "9") c || in_range (code "A") (code "Z") c
  || is_char "_" c || in_range (code "a") (code "z") c.

(** The units the class of [invalidTokenRegex] excludes:
    [`\-\w!#$%&'*+.|~]. *)
Definition token_unit (c : N) : bool :=
  is_char "`" c || is_char "-" c || word_unit c || is_char "!" c || is_char "#" c || is_char "$" c
  || is_char "%" c || is_char "&" c || is_char "'" c || is_char "*" c || is_char "+" c || is_char "." c
  || is_char "|" c || is_char "~" c.

(** [invalidTokenRegex.test(s)]: some unit is outside the class. *)
Definition invalidTokenRegex (s : jsstring) : bool :=
  List.existsb (fun c => negb (token_unit c)) s.

(** The units the class of [invalidHeaderCharRegex] excludes:
    [\t -~\u0080-ÿ]. *)
Definition header_unit (c : N) : bool :=
  N.eqb c 9 || in_range 32 126 c || in_range 128 255 c.

Definition invalidHeaderCharRegex (s : jsstring) : bool :=
  List.existsb (fun c => negb (header_unit c)) s.

Definition validateName (name : jsstring) : completion unit :=
  if invalidTokenRegex name || str_eqb name []
  then Throw (TypeError (not_a_legal_header_name name))
  else Normal tt.

Definition validateValue (value : jsstring) : completion unit :=
  if invalidHeaderCharRegex value
  then Throw (TypeError (not_a_legal_header_value value))
  else Normal tt.

(** A header list is the pair list of the [URLSearchParams] it extends
    (the target of the proxy). *)
Definition t := URLSearchParams.t.

(** The arguments of the constructor: [null] or [undefined], a sequence
    of arrays of strings, or a record of strings.  (Not part of the
    model: copying another [Headers], and the arguments the constructor
    rejects before it looks at a pair: a value that is not an object, an
    object whose iterator is not a function, a sequence with an element
    that is not an object.) *)
Inductive HeadersInit : Type :=
| init_null
| init_sequence (pairs : list (list jsstring))
| init_record (entries : list (jsstring * jsstring)).

Definition check_tuple (pair : list jsstring)
  : completion (jsstring * jsstring) :=
  match pair with
  | [name; value] => Normal (name, value)
  | _ => Throw (TypeError pair_must_be_a_tuple)
  end.

Definition validate_and_lowercase (p : jsstring * jsstring)
  : completion (jsstring * jsstring) :=
  validateName (fst p) ;;;
  validateValue (snd p) ;;;
  Normal (toLowerCase (fst p), snd p).

Definition new (init : HeadersInit) : completion t :=
  result <- match init with
            | init_null => Normal []
            | init_sequence pairs => mapM check_tuple pairs
            | init_record entries => Normal entries
            end ;;
  result <- mapM validate_and_lowercase result ;;
  Normal (URLSearchParams.new result).

(** The methods the proxy intercepts. *)
Definition append (h : t) (name value : jsstring) : completion t :=
  validateName name ;;;
  validateValue value ;;;
  Normal (URLSearchParams.append h (toLowerCase name) value).

Definition set (h : t) (name value : jsstring) : completion t :=
  validateName name ;;;
  validateValue value ;;;
  Normal (URLSearchParams.set h (toLowerCase name) value).

Definition delete (h : t) (name : jsstring) : completion t :=
  validateName name ;;;
  Normal (URLSearchParams.delete h (toLowerCase name)).

Definition has (h : t) (name : jsstring) : completion bool :=
  validateName name ;;;
  Normal (URLSearchParams.has h (toLowerCase name)).

Definition getAll (h : t) (name : jsstring) : completion (list jsstring) :=
  validateName name ;;;
  Normal (URLSearchParams.getAll h (toLowerCase name)).

(** [keys] sorts the target in place, then returns the keys of a [Set]
    built from the names: the result is the list after the call together
    with the sequence the iterator yields. *)
Definition keys (h : t) : t * list jsstring :=
  let target := URLSearchParams.sort h in
  (target, Set_keys (URLSearchParams.keys target)).

(** [/^content-encoding$/i.test(name)]. *)
Definition content_encoding_regex (name : jsstring) : bool :=
  str_eqb (List.map canonicalize name)
          (List.map canonicalize (lit "content-encoding")).

Definition get (h : t) (name : jsstring) : completion (option jsstring) :=
  values <- getAll h name ;;
  if Nat.eqb (List.length values) 0 then Normal None
  else
    let value := join (lit ", ") values in
    let value :=
      if content_encoding_regex name then toLowerCase value else value in
    Normal (Some value).

Definition values (h : t) : t * completion (list (option jsstring)) :=
  let (h', names) := keys h in
  (h', mapM (get h') names).

Definition entries (h : t)
  : t * completion (list (jsstring * option jsstring)) :=
  let (h', names) := keys h in
  (h', mapM (fun name => v <- get h' name ;; Normal (name, v)) names).

(** [forEach]: the callback is given the value and the name of every
    key.  [S] is the state the callback works on; it does not reach the
    header list. *)
Definition forEach {S : Type} (h : t)
  (callback : S -> option jsstring -> jsstring -> completion S) (s : S)
  : t * completion S :=
  let (h', names) := keys h in
  (h',
   List.fold_left
     (fun acc name => s <- acc ;; v <- get h' name ;; callback s v name)
     names (Normal s)).

(** A plain object used as a record: its own properties with their
    values.  [Record_set] is the assignment [res[key] = v]; for the key
    [__proto__] the assignment reaches the prototype of the object and
    creates no property.  [Record_get] looks an own property up.  (The
    order in which a record is enumerated is not part of the model.) *)
Fixpoint Record_define {A : Type} (res : list (jsstring * A))
  (key : jsstring) (v : A) : list (jsstring * A) :=
  match res with
  | [] => [(key, v)]
  | p :: rest =>
      if str_eqb (fst p) key then (key, v) :: rest
      else p :: Record_define rest key v
  end.

Definition Record_set {A : Type} (res : list (jsstring * A))
  (key : jsstring) (v : A) : list (jsstring * A) :=
  if str_eqb key (lit "__proto__") then res else Record_define res key v.

Fixpoint Record_get {A : Type} (res : list (jsstring * A))
  (key : jsstring) : option A :=
  match res with
  | [] => None
  | p :: rest =>
      if str_eqb (fst p) key then Some (snd p) else Record_get rest key
  end.

(** [raw]: every key with all its values. *)
Definition raw (h : t) : t * completion (list (jsstring * list jsstring)) :=
  let (h', names) := keys h in
  (h',
   List.fold_left
     (fun res key =>
        res <- res ;; vs <- getAll h' key ;; Normal (Record_set res key vs))
     names (Normal [])).

(** What the inspection hook stores under a key: [values[0]], which is
    [undefined] for an empty array, or the array itself. *)
Inductive inspected : Type :=
| insp_undefined
| insp_string (s : jsstring)
| insp_array (values : list jsstring).

Definition first_of (values : list jsstring) : inspected :=
  match values with
  | v :: _ => insp_string v
  | [] => insp_undefined
  end.

(** The method [Symbol.for('nodejs.util.inspect.custom')]. *)
Definition inspect_custom (h : t)
  : t * completion (list (jsstring * inspected)) :=
  let (h', names) := keys h in
  (h',
   List.fold_left
     (fun res key =>
        res <- res ;;
        values <- getAll h' key ;;
        Normal
          (Record_set res key
             (if str_eqb key (lit "host") then first_of values
              else if Nat.ltb 1 (List.length values) then insp_array values
              else first_of values)))
     names (Normal [])).

(** The values of the record [createHeadersLenient] takes: a string or an
    array of strings. *)
Inductive field : Type :=
| one (value : jsstring)
| many (values : list jsstring).

(** [String(value)], what [RegExp.prototype.test] applies to its
    argument: an array becomes its elements joined by a comma. *)
Definition String_of_field (value : field) : jsstring :=
  match value with
  | one v => v
  | many vs => join (lit ",") vs
  end.

(** The callback of the [reduce] in [createHeadersLenient]. *)
Definition lenient_step (result : list (list jsstring))
  (entry : jsstring * field) : list (list jsstring) :=
  let (name, value) := entry in
  if negb (invalidTokenRegex name)
     && negb (invalidHeaderCharRegex (String_of_field value))
  then
    match value with
    | many vs => result ++ List.map (fun v => [name; v]) vs
    | one v => result ++ [[name; v]]
    end
  else result.

(** [object] is given by [Object.entries(object)]. *)
Definition createHeadersLenient (object : list (jsstring * field))
  : completion t :=
  new (init_sequence (List.fold_left lenient_step object [])).

End Headers.

(* ================================================================== *)
(** ** body.js: values, streams and the Body mixin *)

Module Body.

Definition bytes := list byte.

Definition byte_of_N (n : N) : byte :=
  match Byte.of_N n with
  | Some b => b
  | None => x00
  end.

Local Open Scope N_scope.

(** [Buffer.from(string)]: the UTF-8 encoding of a string; a surrogate
    outside a pair is encoded as U+FFFD. *)
Fixpoint utf8_encode (s : jsstring) : bytes :=
  match s with
  | [] => []
  | c :: rest =>
      if c <? 128 then byte_of_N c :: utf8_encode rest
      else if c <? 2048 then
        byte_of_N (192 + c / 64) :: byte_of_N (128 + c mod 64)
          :: utf8_encode rest
      else if is_lead c then
        match rest with
        | d :: rest' =>
            if is_trail d then
              let cp := 65536 + (c - 55296) * 1024 + (d - 56320) in
              byte_of_N (240 + cp / 262144)
                :: byte_of_N (128 + (cp / 4096) mod 64)
                :: byte_of_N (128 + (cp / 64) mod 64)
                :: byte_of_N (128 + cp mod 64)
                :: utf8_encode rest'
            else xef :: xbf :: xbd :: utf8_encode rest
        | [] => [xef; xbf; xbd]
        end
      else if is_trail c then xef :: xbf :: xbd :: utf8_encode rest
      else
        byte_of_N (224 + c / 4096)
          :: byte_of_N (128 + (c / 64) mod 64)
          :: byte_of_N (128 + c mod 64)
          :: utf8_encode rest
  end.

Local Close Scope N_scope.

(** What a readable stream emits, in order.  A [null] chunk is a chunk
    the ['data'] listener can see. *)
Inductive stream_event : Type :=
| ev_data (chunk : option bytes)
| ev_end
| ev_error (err : js_error).

(** The methods of the form-data module's encoder an object may have:
    each field holds what the method returns, when the object has it. *)
Record form_methods : Type := {
  getBoundary : option jsstring;
  getLengthSync : option N;
  hasKnownLength : option bool
}.

Definition no_methods : form_methods :=
  {| getBoundary := None; getLengthSync := None; hasKnownLength := None |}.

(** Instances of [Stream]: a source with the events it emits, or a
    [PassThrough] another stream is piped into.  The [PassThrough]
    streams of one source are different objects: [nth] numbers them in
    the order of the calls of [pipe]. *)
Inductive Stream : Type :=
| Readable (emits : list stream_event) (methods : form_methods)
| PassThrough (nth : nat) (highWaterMark : option N) (source : Stream).

(** [source.pipe(dest)]: every chunk is written to the destination, which
    is ended when the source ends; an error of the source is not passed
    on, and the destination stays open.  This is what the destination
    emits in its turn while nothing holds the source back (see
    [held_back]). *)
Fixpoint piped (emits : list stream_event) : list stream_event :=
  match emits with
  | [] => []
  | ev_data chunk :: rest => ev_data chunk :: piped rest
  | ev_end :: _ => [ev_end]
  | ev_error _ :: _ => []
  end.

Fixpoint events (s : Stream) : list stream_event :=
  match s with
  | Readable emits _ => emits
  | PassThrough _ _ source => piped (events source)
  end.

Definition methods_of (s : Stream) : form_methods :=
  match s with
  | Readable _ m => m
  | PassThrough _ _ _ => no_methods
  end.

(** The chunks a stream carries. *)
Fixpoint chunks_of (emits : list stream_event) : list (option bytes) :=
  match emits with
  | ev_data chunk :: rest => chunk :: chunks_of rest
  | _ => []
  end.

Definition stream_data (s : Stream) : list (option bytes) :=
  chunks_of (events s).

(** The bytes a sequence of chunks carries; a [null] chunk carries
    none. *)
Definition payload (chunks : list (option bytes)) : bytes :=
  List.flat_map (fun c => match c with Some x => x | None => [] end) chunks.

(** The other side of [pipe]: a destination that does not take more
    holds the source back. *)
Section Backpressure.

(** What [write] answers on a stream made with that [highWaterMark] that
    holds these chunks unread: whether the stream takes more.  It is the
    platform's. *)
Variable wants_more : option N -> list (option bytes) -> bool.

Variable highWaterMark : option N.

(** What a source gets to emit while one of the streams it is piped into
    is read by nobody; [held] is what that stream holds.  Every chunk is
    written to it as to the other destinations; once it does not take
    more, the source is paused until it is read, which does not happen:
    the source emits nothing further, not even its end. *)
Fixpoint held_back (emits : list stream_event) (held : list (option bytes))
  : list stream_event :=
  match emits with
  | ev_data chunk :: rest =>
      ev_data chunk ::
        (if wants_more highWaterMark (held ++ [chunk])
         then held_back rest (held ++ [chunk])
         else [])
  | _ => emits
  end.

End Backpressure.

(** What a [PassThrough] emits to its reader while nobody reads the other
    [PassThrough] of its source, made with the same [highWaterMark] as
    [clone] makes them. *)
Definition alone (wants_more : option N -> list (option bytes) -> bool)
  (s : Stream) : list stream_event :=
  match s with
  | Readable emits _ => emits
  | PassThrough _ highWaterMark source =>
      piped (held_back wants_more highWaterMark (events source) [])
  end.

(** The answer of [write] on a stream of Node.js: true while the stream
    holds fewer bytes than its [highWaterMark], which is 16 KiB when none
    is given. *)
Definition write_takes_more (highWaterMark : option N)
  (held : list (option bytes)) : bool :=
  (N.of_nat (List.length (payload held))
   <? match highWaterMark with Some n => n | None => 16384 end)%N.

Record Blob : Type := {
  blob_type : jsstring;      (* body.type *)
  blob_size : N;             (* body.size *)
  blob_stream : Stream       (* body.stream() *)
}.

(** The values a body can be made from. *)
Inductive value : Type :=
| null
| undefined
| a_string (s : jsstring)
| a_URLSearchParams (toString : jsstring)
| a_Blob (b : Blob)
| a_Buffer (b : bytes)
| an_ArrayBuffer (b : bytes)
| an_ArrayBufferView (buffer : bytes) (byteOffset byteLength : nat)
| a_Stream (s : Stream)
| another (toString : jsstring) (methods : form_methods).

(** Modelled from the spec: the predicates of [utils/is.js]
    ([isBlob], [isURLSearchParameters], [isAbortError]) recognise a blob,
    URL-encoded form parameters and an external abort signal by their
    shape; here by the constructor of the value. *)
Definition isURLSearchParameters (v : value) : bool :=
  match v with a_URLSearchParams _ => true | _ => false end.

(** Modelled from the spec: see [isURLSearchParameters]. *)
Definition isBlob (v : value) : bool :=
  match v with a_Blob _ => true | _ => false end.

(** Modelled from the spec: see [isURLSearchParameters]. *)
Definition isAbortError (e : js_error) : bool :=
  match e with AbortError => true | _ => false end.

Definition is_null (v : value) : bool :=
  match v with null => true | _ => false end.
Definition typeof_string (v : value) : bool :=
  match v with a_string _ => true | _ => false end.
Definition Buffer_isBuffer (v : value) : bool :=
  match v with a_Buffer _ => true | _ => false end.
Definition isAnyArrayBuffer (v : value) : bool :=
  match v with an_ArrayBuffer _ => true | _ => false end.
Definition ArrayBuffer_isView (v : value) : bool :=
  match v with an_ArrayBufferView _ _ _ | a_Buffer _ => true | _ => false end.
Definition instanceof_Stream (v : value) : bool :=
  match v with a_Stream _ => true | _ => false end.

(** The form-data methods of a value ([typeof v.m === 'function']). *)
Definition methods (v : value) : form_methods :=
  match v with
  | a_Stream s => methods_of s
  | another _ m => m
  | _ => no_methods
  end.

(** [body.type], for the values that have one. *)
Definition type_of (v : value) : option jsstring :=
  match v with
  | a_Blob b => Some (blob_type b)
  | _ => None
  end.

Record Internals : Type := {
  body : value;
  disturbed : bool;
  error : option js_error
}.

(** A Body instance: its internals, its options, and the header list
    the class mixed into may give it ([this.headers]). *)
Record t : Type := {
  INTERNALS : Internals;
  size : N;
  timeout : N;
  headers : option Headers.t
}.

Definition with_internals (this : t) (i : Internals) : t :=
  {| INTERNALS := i; size := size this; timeout := timeout this;
     headers := headers this |}.

(** The constructor: the argument is normalised to [null], a buffer, a
    blob or a stream.  The last branch coerces to a string: only
    [undefined], a string or a value of no other shape reach it. *)
Definition new (body : value) (size timeout : N) : t :=
  let body :=
    match body with
    | null => null
    | a_URLSearchParams toString => a_Buffer (utf8_encode toString)
    | a_Blob _ => body
    | a_Buffer _ => body
    | an_ArrayBuffer b => a_Buffer b
    | an_ArrayBufferView buffer byteOffset byteLength =>
        a_Buffer (List.firstn byteLength (List.skipn byteOffset buffer))
    | a_Stream _ => body
    | undefined => a_Buffer (utf8_encode (lit "undefined"))
    | a_string s => a_Buffer (utf8_encode s)
    | another toString _ => a_Buffer (utf8_encode toString)
    end in
  {| INTERNALS := {| body := body; disturbed := false; error := None |};
     size := size; timeout := timeout; headers := None |}.

(** The ['error'] listener the constructor puts on a stream body. *)
Definition on_error (this : t) (err : js_error) : t :=
  if instanceof_Stream (body (INTERNALS this)) then
    let error :=
      if isAbortError err then err else FetchError system (Some err) in
    with_internals this
      {| body := body (INTERNALS this);
         disturbed := disturbed (INTERNALS this);
         error := Some error |}
  else this.

Definition get_body (this : t) : value := body (INTERNALS this).
Definition bodyUsed (this : t) : bool := disturbed (INTERNALS this).

(** The state of a promise. *)
Inductive promise (A : Type) : Type :=
| pending
| fulfilled (v : A)
| rejected (e : js_error).
Arguments pending {A}.
Arguments fulfilled {A} v.
Arguments rejected {A} e.

(** The synchronous step after [await]: a fulfilled value is mapped, and
    an exception of the step rejects. *)
Definition and_then {A B : Type} (p : promise A) (f : A -> completion B)
  : promise B :=
  match p with
  | pending => pending
  | fulfilled v =>
      match f v with
      | Normal r => fulfilled r
      | Throw e => rejected e
      end
  | rejected e => rejected e
  end.

(** The variables of the closure in which [consumeBody] reads a stream,
    with the promise it returned. *)
Record drain : Type := {
  accum : list bytes;
  accumBytes : N;
  abort : bool;
  responseTimeout : bool;        (* a timer is armed *)
  destroyed : option js_error;   (* body.destroy(err) was called *)
  settled : promise bytes
}.

Definition resolve (d : drain) (b : bytes) : drain :=
  match settled d with
  | pending =>
      {| accum := accum d; accumBytes := accumBytes d; abort := abort d;
         responseTimeout := responseTimeout d; destroyed := destroyed d;
         settled := fulfilled b |}
  | _ => d
  end.

Definition reject (d : drain) (e : js_error) : drain :=
  match settled d with
  | pending =>
      {| accum := accum d; accumBytes := accumBytes d; abort := abort d;
         responseTimeout := responseTimeout d; destroyed := destroyed d;
         settled := rejected e |}
  | _ => d
  end.

Definition set_abort (d : drain) : drain :=
  {| accum := accum d; accumBytes := accumBytes d; abort := true;
     responseTimeout := responseTimeout d; destroyed := destroyed d;
     settled := settled d |}.

Definition clearTimeout (d : drain) : drain :=
  {| accum := accum d; accumBytes := accumBytes d; abort := abort d;
     responseTimeout := false; destroyed := destroyed d;
     settled := settled d |}.

Definition destroy (d : drain) (e : js_error) : drain :=
  {| accum := accum d; accumBytes := accumBytes d; abort := abort d;
     responseTimeout := responseTimeout d; destroyed := Some e;
     settled := settled d |}.

Definition push (d : drain) (chunk : bytes) : drain :=
  {| accum := accum d ++ [chunk];
     accumBytes := (accumBytes d + N.of_nat (List.length chunk))%N;
     abort := abort d; responseTimeout := responseTimeout d;
     destroyed := destroyed d; settled := settled d |}.

Section Drain.

(** The largest size of a buffer ([buffer.constants.MAX_LENGTH]). *)
Variable kMaxLength : N.

(** [Buffer.concat(list, totalLength)]. *)
Definition Buffer_concat (list : list bytes) (totalLength : N)
  : completion bytes :=
  if (kMaxLength <? totalLength)%N
  then Throw (RangeError (other_message "Invalid typed array length"))
  else
    let n := N.to_nat totalLength in
    Normal (List.firstn n (List.concat list ++ List.repeat x00 n)).

(** The options of the instance that is drained. *)
Variable data : t.

(** The callback of [setTimeout]. *)
Definition on_timeout (d : drain) : drain :=
  let err := FetchError body_timeout None in
  destroy (reject (set_abort d) err) err.

(** The ['data'] listener. *)
Definition on_data (d : drain) (chunk : option bytes) : drain :=
  match chunk with
  | None => d
  | Some chunk =>
      if abort d then d
      else if negb (N.eqb (size data) 0)
              && (size data <? accumBytes d + N.of_nat (List.length chunk))%N
      then reject (set_abort d) (FetchError max_size None)
      else push d chunk
  end.

(** The callback of [finished]. *)
Definition on_finished (d : drain) (err : option js_error) : drain :=
  let d := clearTimeout d in
  match err with
  | Some err =>
      if isAbortError err then reject (set_abort d) err
      else reject d (FetchError system (Some err))
  | None =>
      if abort d then d
      else
        match Buffer_concat (accum d) (accumBytes d) with
        | Normal b => resolve d b
        | Throw error => reject d (FetchError system (Some error))
        end
  end.

(** The event loop while the stream is read.  [timer] is [Some k] when
    the armed timer expires after [k] more events of the stream, [None]
    when no timer is armed or the stream is finished before it expires.
    On expiry the stream is destroyed with the timeout error, which is
    what [finished] then reports.  A stream that stops emitting without
    ending or failing leaves the promise to the timer. *)
Fixpoint run (timer : option nat) (emits : list stream_event) (d : drain)
  : drain :=
  let expire d :=
    on_finished (on_timeout d) (Some (FetchError body_timeout None)) in
  match timer with
  | Some O => expire d
  | _ =>
      match emits with
      | [] => match timer with Some _ => expire d | None => d end
      | ev_data chunk :: rest =>
          run (option_map Nat.pred timer) rest (on_data d chunk)
      | ev_end :: _ => on_finished d None
      | ev_error err :: _ => on_finished d (Some err)
      end
  end.

(** [consumeBody(data)].  [expiry] tells when the timer expires, should
    one be armed: after that many events of the stream.  The result is
    the instance after the call and the promise as it ends up. *)
Definition consumeBody (expiry : option nat) : t * promise bytes :=
  if disturbed (INTERNALS data) then (data, rejected (TypeError body_used_already))
  else
    let data' :=
      with_internals data
        {| body := body (INTERNALS data); disturbed := true;
           error := error (INTERNALS data) |} in
    match error (INTERNALS data') with
    | Some e => (data', rejected e)
    | None =>
        let body := get_body data' in
        if is_null body then (data', fulfilled [])
        else
          let body :=
            match body with
            | a_Blob b => a_Stream (blob_stream b)
            | _ => body
            end in
          match body with
          | a_Buffer b => (data', fulfilled b)
          | a_Stream s =>
              let d :=
                {| accum := []; accumBytes := 0; abort := false;
                   responseTimeout := negb (N.eqb (timeout data') 0);
                   destroyed := None; settled := pending |} in
              let timer :=
                if responseTimeout d then expiry else None in
              (data', settled (run timer (events s) d))
          | _ => (data', fulfilled [])
          end
    end.

End Drain.

(** What the accessors of a body resolve to. *)
Inductive result (json : Type) : Type :=
| an_arrayBuffer (b : bytes)
| a_blob (type : jsstring) (buffer : bytes)   (* new Blob([], {type, buffer}) *)
| a_json (v : json)
| a_text (s : jsstring)
| a_buffer (b : bytes).
Arguments an_arrayBuffer {json} b.
Arguments a_blob {json} type buffer.
Arguments a_json {json} v.
Arguments a_text {json} s.
Arguments a_buffer {json} b.

Inductive accessor : Type :=
| acc_arrayBuffer | acc_blob | acc_json | acc_text | acc_buffer.

Section Accessors.

Variable kMaxLength : N.

(** The platform's [Buffer.prototype.toString] (UTF-8 decoding) and
    [JSON.parse]. *)
Variable Buffer_toString : bytes -> jsstring.
Variable json : Type.
Variable JSON_parse : jsstring -> completion json.

Definition truthy (s : option jsstring) : option jsstring :=
  match s with
  | Some [] => None
  | _ => s
  end.

Definition arrayBuffer (this : t) (expiry : option nat)
  : t * promise (result json) :=
  let (this', p) := consumeBody kMaxLength this expiry in
  (this', and_then p (fun buffer => Normal (an_arrayBuffer buffer))).

Definition blob (this : t) (expiry : option nat)
  : t * promise (result json) :=
  let ct :=
    from_headers <-
      match headers this with
      | Some h => Headers.get h (lit "content-type")
      | None => Normal None
      end ;;
    Normal
      match truthy from_headers with
      | Some ct => ct
      | None =>
          match truthy (type_of (body (INTERNALS this))) with
          | Some ct => ct
          | None => []
          end
      end in
  match ct with
  | Throw e => (this, rejected e)
  | Normal ct =>
      let (this', p) := consumeBody kMaxLength this expiry in
      (this', and_then p (fun buf => Normal (a_blob (toLowerCase ct) buf)))
  end.

Definition json_ (this : t) (expiry : option nat)
  : t * promise (result json) :=
  let (this', p) := consumeBody kMaxLength this expiry in
  (this',
   and_then p (fun buffer =>
     v <- JSON_parse (Buffer_toString buffer) ;; Normal (a_json v))).

Definition text (this : t) (expiry : option nat)
  : t * promise (result json) :=
  let (this', p) := consumeBody kMaxLength this expiry in
  (this', and_then p (fun buffer => Normal (a_text (Buffer_toString buffer)))).

Definition buffer (this : t) (expiry : option nat)
  : t * promise (result json) :=
  let (this', p) := consumeBody kMaxLength this expiry in
  (this', and_then p (fun b => Normal (a_buffer b))).

Definition call (a : accessor) : t -> option nat -> t * promise (result json) :=
  match a with
  | acc_arrayBuffer => arrayBuffer
  | acc_blob => blob
  | acc_json => json_
  | acc_text => text
  | acc_buffer => buffer
  end.

End Accessors.

(** [clone(instance, highWaterMark)]: the instance after the call and the
    body returned.  [p1] and [p2] are the first and the second stream the
    body is piped into. *)
Definition clone (instance : t) (highWaterMark : option N)
  : completion (t * value) :=
  let body := get_body instance in
  if bodyUsed instance then Throw (Error cannot_clone_after_use)
  else
    match body with
    | a_Stream s =>
        match getBoundary (methods body) with
        | None =>
            let p1 := PassThrough 0 highWaterMark s in
            let p2 := PassThrough 1 highWaterMark s in
            Normal
              (with_internals instance
                 {| body := a_Stream p1;
                    disturbed := disturbed (INTERNALS instance);
                    error := error (INTERNALS instance) |},
               a_Stream p2)
        | Some _ => Normal (instance, body)
        end
    | _ => Normal (instance, body)
    end.

Definition text_plain : jsstring := lit "text/plain;charset=UTF-8".

(** [extractContentType(body)]; [None] is [null]. *)
Definition extractContentType (body : value) : option jsstring :=
  if is_null body then None
  else if typeof_string body then Some text_plain
  else if isURLSearchParameters body then
    Some (lit "application/x-www-form-urlencoded;charset=UTF-8")
  else if isBlob body then truthy (type_of body)
  else if Buffer_isBuffer body || isAnyArrayBuffer body
          || ArrayBuffer_isView body then None
  else
    match getBoundary (methods body) with
    | Some boundary => Some (lit "multipart/form-data;boundary=" ++ boundary)
    | None =>
        if instanceof_Stream body then None
        else Some text_plain
    end.

(** [getTotalBytes(instance)]; [None] is [null]. *)
Definition getTotalBytes (instance : t) : option N :=
  let body := get_body instance in
  if is_null body then Some 0%N
  else
    match body with
    | a_Blob b => Some (blob_size b)
    | a_Buffer b => Some (N.of_nat (List.length b))
    | _ =>
        match getLengthSync (methods body) with
        | Some len =>
            match hasKnownLength (methods body) with
            | Some true => Some len
            | _ => None
            end
        | None => None
        end
    end.

(** A writable stream: what was written to it, and whether it was
    ended. *)
Record Writable : Type := {
  written : list (option bytes);
  ended : bool
}.

Definition write (dest : Writable) (chunk : option bytes) : Writable :=
  {| written := written dest ++ [chunk]; ended := ended dest |}.

Definition end_ (dest : Writable) : Writable :=
  {| written := written dest; ended := true |}.

(** [source.pipe(dest)], once the source has emitted all its events. *)
Fixpoint pipe (emits : list stream_event) (dest : Writable) : Writable :=
  match emits with
  | [] => dest
  | ev_data chunk :: rest => pipe rest (write dest chunk)
  | ev_end :: _ => end_ dest
  | ev_error _ :: _ => dest
  end.

(** [writeToStream(dest, instance)].  A body that is neither [null], a
    blob, a buffer nor a stream has no [pipe] method to call. *)
Definition writeToStream (dest : Writable) (instance : t)
  : completion Writable :=
  let body := get_body instance in
  if is_null body then Normal (end_ dest)
  else
    match body with
    | a_Blob b => Normal (pipe (events (blob_stream b)) dest)
    | a_Buffer b => Normal (end_ (write dest (Some b)))
    | a_Stream s => Normal (pipe (events s) dest)
    | _ => Throw (TypeError (other_message "body.pipe is not a function"))
    end.

End Body.

(* ================================================================== *)
(** ** Notions the properties are stated with *)

(** The order of names and of pairs by name, as relations. *)
Definition str_leb_rel (a b : jsstring) : Prop := str_leb a b = true.

Definition name_le (p q : jsstring * jsstring) : Prop :=
  str_leb (fst p) (fst q) = true.

(** The pairs [createHeadersLenient] passes to the constructor for one
    entry of its argument. *)
Definition lenient_pairs (entry : jsstring * Headers.field)
  : list (jsstring * jsstring) :=
  if negb (Headers.invalidTokenRegex (fst entry))
     && negb (Headers.invalidHeaderCharRegex
                (Headers.String_of_field (snd entry)))
  then
    match snd entry with
    | Headers.many vs => List.map (pair (fst entry)) vs
    | Headers.one v => [(fst entry, v)]
    end
  else [].

(** A header list as the constructor and the intercepted methods leave
    it: every name is a legal name in lower case, every value a legal
    value. *)
Definition well_formed (h : Headers.t) : Prop :=
  Forall
    (fun p => Headers.validateName (fst p) = Normal tt
              /\ toLowerCase (fst p) = fst p
              /\ Headers.validateValue (snd p) = Normal tt) h.

(** The stream [consumeBody] reads: the body itself, or the stream of a
    blob. *)
Definition source_of (v : Body.value) : option Body.Stream :=
  match v with
  | Body.a_Stream s => Some s
  | Body.a_Blob b => Some (Body.blob_stream b)
  | _ => None
  end.

(** The instance once [consumeBody] has marked it. *)
Definition used (b : Body.t) : Body.t :=
  Body.with_internals b
    {| Body.body := Body.body (Body.INTERNALS b);
       Body.disturbed := true;
       Body.error := Body.error (Body.INTERNALS b) |}.

(** The variables of the closure when the listeners are attached. *)
Definition listening (b : Body.t) : Body.drain :=
  {| Body.accum := []; Body.accumBytes := 0; Body.abort := false;
     Body.responseTimeout := negb (N.eqb (Body.timeout b) 0);
     Body.destroyed := None; Body.settled := Body.pending |}.

(** The timer of a drain: armed only when [timeout] is not zero. *)
Definition armed (b : Body.t) (expiry : option nat) : option nat :=
  if negb (N.eqb (Body.timeout b) 0) then expiry else None.

(** The promise of [consumeBody] on an instance that was not used, when
    its stream emits [emits] while it is read. *)
Definition drain_of (kMaxLength : N) (b : Body.t) (expiry : option nat)
  (emits : list Body.stream_event) : Body.promise Body.bytes :=
  Body.settled
    (Body.run kMaxLength (used b) (armed b expiry) emits (listening b)).


(* ================================================================== *)
(** * Properties *)

(** ** Strings *)

Lemma str_eqb_eq (a b : jsstring) : str_eqb a b = true <-> a = b.
Proof.
  revert b; induction a as [|x a IH]; intros [|y b]; simpl;
    try (split; [discriminate | congruence]); try tauto.
  rewrite andb_true_iff, N.eqb_eq, IH.
  split; [intros [-> ->]; reflexivity | intros E; inversion E; auto].
Qed.

Lemma str_eqb_refl (a : jsstring) : str_eqb a a = true.
Proof. apply str_eqb_eq; reflexivity. Qed.

Lemma str_eqb_neq (a b : jsstring) : str_eqb a b = false <-> a <> b.
Proof.
  rewrite <- str_eqb_eq. destruct (str_eqb a b); split; congruence.
Qed.

Lemma compare_units_refl (a : jsstring) : compare_units a a = Eq.
Proof.
  induction a as [|x a IH]; simpl; auto. now rewrite N.compare_refl.
Qed.

Lemma compare_units_eq (a b : jsstring) : compare_units a b = Eq -> a = b.
Proof.
  revert b; induction a as [|x a IH]; intros [|y b]; simpl; try discriminate;
    auto.
  destruct (N.compare_spec x y) as [->|H|H]; try discriminate.
  intros E; f_equal; auto.
Qed.

Lemma compare_units_antisym (a b : jsstring) :
  compare_units b a = CompOpp (compare_units a b).
Proof.
  revert b; induction a as [|x a IH]; intros [|y b]; simpl; auto.
  rewrite (N.compare_antisym x y).
  destruct (N.compare x y); simpl; auto.
Qed.

Lemma compare_units_lt_trans (a b c : jsstring) :
  compare_units a b = Lt -> compare_units b c = Lt -> compare_units a c = Lt.
Proof.
  revert b c; induction a as [|x a IH]; intros [|y b] [|z c]; simpl;
    try discriminate; auto.
  destruct (N.compare_spec x y) as [->|Hxy|Hxy]; try discriminate.
  - destruct (N.compare_spec y z) as [->|Hyz|Hyz]; try discriminate; auto.
    apply IH.
  - destruct (N.compare_spec y z) as [->|Hyz|Hyz]; try discriminate; intros _ _.
    + destruct (N.compare_spec x z); auto; lia.
    + destruct (N.compare_spec x z); auto; lia.
Qed.

Lemma str_leb_refl (a : jsstring) : str_leb a a = true.
Proof. unfold str_leb. now rewrite compare_units_refl. Qed.

Lemma str_leb_total (a b : jsstring) :
  str_leb a b = false -> str_leb b a = true.
Proof.
  unfold str_leb. rewrite (compare_units_antisym a b).
  destruct (compare_units a b); simpl; auto; discriminate.
Qed.

Lemma str_leb_trans (a b c : jsstring) :
  str_leb a b = true -> str_leb b c = true -> str_leb a c = true.
Proof.
  unfold str_leb.
  destruct (compare_units a b) eqn:Eab; try discriminate; intros _;
    destruct (compare_units b c) eqn:Ebc; try discriminate; intros _.
  - apply compare_units_eq in Eab, Ebc; subst. now rewrite compare_units_refl.
  - apply compare_units_eq in Eab; subst. now rewrite Ebc.
  - apply compare_units_eq in Ebc; subst. now rewrite Eab.
  - now rewrite (compare_units_lt_trans _ _ _ Eab Ebc).
Qed.

Lemma str_leb_lt (a b : jsstring) :
  str_leb a b = true -> a <> b -> str_lt a b.
Proof.
  unfold str_leb, str_lt. destruct (compare_units a b) eqn:E; auto.
  - apply compare_units_eq in E. congruence.
  - discriminate.
Qed.

Lemma str_lt_leb (a b : jsstring) : str_lt a b -> str_leb a b = true.
Proof. unfold str_leb, str_lt. now intros ->. Qed.

Lemma str_lt_irrefl (a : jsstring) : ~ str_lt a a.
Proof. unfold str_lt. rewrite compare_units_refl. discriminate. Qed.

Lemma startsWith_app (v post : jsstring) : startsWith (v ++ post) v = true.
Proof.
  induction v as [|x v IH]; [reflexivity|].
  change (N.eqb x x && startsWith (v ++ post) v = true).
  now rewrite N.eqb_refl.
Qed.

Lemma startsWith_iff (s p : jsstring) :
  startsWith s p = true <-> exists post, s = p ++ post.
Proof.
  revert s; induction p as [|y p IH]; intros s; simpl.
  - split; eauto.
  - destruct s as [|x s].
    + split; [discriminate | intros [post E]; discriminate].
    + rewrite andb_true_iff, N.eqb_eq, IH. split.
      * intros [-> [post ->]]. now exists post.
      * intros [post E]. inversion E; subst. split; eauto.
Qed.

(** [includes] decides the substring relation. *)
Lemma includes_iff (s sub : jsstring) :
  includes s sub = true <-> exists pre post, s = pre ++ sub ++ post.
Proof.
  induction s as [|x s IH].
  - simpl. rewrite orb_false_r, startsWith_iff. split.
    + intros [post E]. now exists [], post.
    + intros [pre [post E]]. destruct pre; simpl in E.
      * now exists post.
      * discriminate.
  - cbn [includes]. rewrite orb_true_iff, startsWith_iff, IH. split.
    + intros [[post E]|[pre [post E]]].
      * now exists [], post.
      * exists (x :: pre), post. simpl. now rewrite E.
    + intros [pre [post E]]. destruct pre as [|y pre]; simpl in E.
      * left. now exists post.
      * right. inversion E; subst. now exists pre, post.
Qed.

Lemma includes_app (pre v post : jsstring) :
  includes (pre ++ v ++ post) v = true.
Proof. apply includes_iff. now exists pre, post. Qed.

(** ** The multi-map: sorting and the key set *)

Section SortFacts.

Import URLSearchParams.

Lemma insert_In (p q : jsstring * jsstring) (l : t) :
  In q (insert p l) <-> q = p \/ In q l.
Proof.
  induction l as [|r l IH]; simpl.
  - split; intros [H|H]; auto.
  - destruct (str_leb (fst p) (fst r)); simpl.
    + split; intros [H|H]; auto.
    + rewrite IH. tauto.
Qed.

Lemma sort_In (q : jsstring * jsstring) (l : t) : In q (sort l) <-> In q l.
Proof.
  induction l as [|p l IH]; simpl; [tauto|].
  rewrite insert_In, IH. split; intros [H|H]; auto.
Qed.

Lemma insert_sorted (p : jsstring * jsstring) (l : t) :
  StronglySorted name_le l -> StronglySorted name_le (insert p l).
Proof.
  induction 1 as [|q l Hl IH Hq]; simpl.
  - constructor; constructor.
  - destruct (str_leb (fst p) (fst q)) eqn:E.
    + constructor; [constructor; assumption|].
      constructor; [exact E|].
      eapply Forall_impl; [|exact Hq].
      intros r Hr. unfold name_le in *. eapply str_leb_trans; eauto.
    + constructor; [assumption|].
      apply Forall_forall. intros r Hr. apply insert_In in Hr.
      destruct Hr as [->|Hr].
      * apply str_leb_total, E.
      * rewrite Forall_forall in Hq. now apply Hq.
Qed.

Lemma sort_sorted (l : t) : StronglySorted name_le (sort l).
Proof.
  induction l as [|p l IH]; simpl; [constructor | now apply insert_sorted].
Qed.

(** Sorting a sorted list changes nothing. *)
Lemma sort_id (l : t) : StronglySorted name_le l -> sort l = l.
Proof.
  induction 1 as [|p l Hl IH Hp]; simpl; [reflexivity|].
  rewrite IH. destruct l as [|q l]; simpl; [reflexivity|].
  inversion Hp as [|? ? Hq _]; subst. unfold name_le in Hq. now rewrite Hq.
Qed.

(** The sort is stable: the pairs of one name keep their order. *)
Lemma insert_filter (n : jsstring) (p : jsstring * jsstring) (l : t) :
  filter (fun q => str_eqb (fst q) n) (insert p l)
  = filter (fun q => str_eqb (fst q) n) (p :: l).
Proof.
  induction l as [|q l IH]; [reflexivity|].
  cbn [insert]. destruct (str_leb (fst p) (fst q)) eqn:E; [reflexivity|].
  cbn [filter] in *. rewrite IH.
  destruct (str_eqb (fst p) n) eqn:Ep; [|reflexivity].
  destruct (str_eqb (fst q) n) eqn:Eq; [|reflexivity].
  apply str_eqb_eq in Ep, Eq. rewrite Ep, <- Eq, str_leb_refl in E.
  discriminate.
Qed.

Lemma sort_getAll (l : t) (n : jsstring) : getAll (sort l) n = getAll l n.
Proof.
  unfold getAll. f_equal.
  induction l as [|p l IH]; [reflexivity|].
  cbn [sort]. rewrite insert_filter. cbn [filter]. now rewrite IH.
Qed.

End SortFacts.

Section SetFacts.

Lemma existsb_str_eqb (x : jsstring) (s : list jsstring) :
  existsb (str_eqb x) s = true <-> In x s.
Proof.
  rewrite existsb_exists. split.
  - intros [y [Hy E]]. apply str_eqb_eq in E. now subst.
  - intros H. exists x. split; [assumption | apply str_eqb_refl].
Qed.

Lemma Set_add_In (s : list jsstring) (x y : jsstring) :
  In y (Set_add s x) <-> In y s \/ y = x.
Proof.
  unfold Set_add. destruct (existsb (str_eqb x) s) eqn:E.
  - apply existsb_str_eqb in E. split; [tauto|]. intros [H| ->]; auto.
  - rewrite in_app_iff. simpl. intuition.
Qed.

Lemma Set_from_In (l acc : list jsstring) (y : jsstring) :
  In y (fold_left Set_add l acc) <-> In y acc \/ In y l.
Proof.
  revert acc; induction l as [|x l IH]; intros acc; simpl; [tauto|].
  rewrite IH, Set_add_In. intuition.
Qed.

Lemma Set_add_NoDup (s : list jsstring) (x : jsstring) :
  NoDup s -> NoDup (Set_add s x).
Proof.
  intros H. unfold Set_add. destruct (existsb (str_eqb x) s) eqn:E; auto.
  assert (~ In x s) as Hx.
  { intros Hin. apply existsb_str_eqb in Hin. congruence. }
  clear E. induction H as [|a s Ha Hs IH]; simpl.
  - constructor; [intros []|constructor].
  - constructor.
    + rewrite in_app_iff. simpl. intros [H|[H|[]]]; [tauto|].
      subst. apply Hx. now left.
    + apply IH. intros H. apply Hx. now right.
Qed.

Lemma Set_from_NoDup (l acc : list jsstring) :
  NoDup acc -> NoDup (fold_left Set_add l acc).
Proof.
  revert acc; induction l as [|x l IH]; intros acc H; simpl; auto.
  apply IH, Set_add_NoDup, H.
Qed.

Lemma StronglySorted_snoc (acc : list jsstring) (x : jsstring) :
  StronglySorted str_lt acc -> Forall (fun a => str_lt a x) acc ->
  StronglySorted str_lt (acc ++ [x]).
Proof.
  induction 1 as [|a acc Hs IH Ha]; intros Hx; simpl.
  - constructor; constructor.
  - inversion Hx; subst. constructor; [now apply IH|].
    apply Forall_app. split; [assumption|]. now constructor.
Qed.

Lemma Set_from_sorted (l acc : list jsstring) :
  StronglySorted str_lt acc ->
  (forall a x, In a acc -> In x l -> str_leb a x = true) ->
  StronglySorted str_leb_rel l ->
  StronglySorted str_lt (fold_left Set_add l acc).
Proof.
  revert acc; induction l as [|x l IH]; intros acc Hacc Hle Hl; simpl; auto.
  inversion Hl as [|? ? Hl' Hx]; subst. rewrite Forall_forall in Hx.
  apply IH; auto.
  - unfold Set_add. destruct (existsb (str_eqb x) acc) eqn:E; auto.
    apply StronglySorted_snoc; auto.
    apply Forall_forall. intros a Ha. apply str_leb_lt.
    + apply Hle; simpl; auto.
    + intros ->. apply existsb_str_eqb in Ha. congruence.
  - intros a y Ha Hy. apply Set_add_In in Ha. destruct Ha as [Ha| ->].
    + apply Hle; simpl; auto.
    + now apply Hx.
Qed.

Lemma sorted_keys (l : URLSearchParams.t) :
  StronglySorted name_le l ->
  StronglySorted str_leb_rel (URLSearchParams.keys l).
Proof.
  induction 1 as [|p l Hl IH Hp]; simpl; constructor; auto.
  apply Forall_forall. intros n Hn. apply in_map_iff in Hn.
  destruct Hn as [q [<- Hq]]. rewrite Forall_forall in Hp. now apply Hp.
Qed.

Lemma sort_keys_In (l : URLSearchParams.t) (n : jsstring) :
  In n (URLSearchParams.keys (URLSearchParams.sort l))
  <-> In n (URLSearchParams.keys l).
Proof.
  unfold URLSearchParams.keys. rewrite !in_map_iff.
  split; intros [q [E H]]; exists q; split; auto; now apply sort_In.
Qed.

End SetFacts.

(** ** C5: [keys] *)

(** C5. For every header list, [keys()] yields the stored names sorted
    (strictly increasing by code units, hence without duplicates), every
    stored name and no other occurs in it, and a second call yields the
    same sequence; the list with names b, a, a yields a, b on both
    calls. *)
Theorem keys_sorted_deduplicated (h : Headers.t) :
  let names := snd (Headers.keys h) in
  StronglySorted str_lt names /\
  NoDup names /\
  (forall n, In n names <-> In n (URLSearchParams.keys h)) /\
  snd (Headers.keys (fst (Headers.keys h))) = names /\
  (forall v1 v2 v3 : jsstring,
     let h0 := [(lit "b", v1); (lit "a", v2); (lit "a", v3)] in
     snd (Headers.keys h0) = [lit "a"; lit "b"] /\
     snd (Headers.keys (fst (Headers.keys h0))) = [lit "a"; lit "b"]).
Proof.
  cbn zeta. unfold Headers.keys, Set_keys. cbn [fst snd].
  repeat split.
  - apply Set_from_sorted.
    + constructor.
    + intros a x [].
    + apply sorted_keys, sort_sorted.
  - apply Set_from_NoDup. constructor.
  - intros H. apply Set_from_In in H. destruct H as [[]|H].
    now apply sort_keys_In.
  - intros H. apply Set_from_In. right. now apply sort_keys_In.
  - now rewrite (sort_id (sort_sorted h)).
Qed.

(** ** The Body mixin *)

Section BodyFacts.

Import Body.

Lemma validateName_content_type :
  Headers.validateName (lit "content-type") = Normal tt.
Proof. reflexivity. Qed.

Lemma get_content_type_total (h : Headers.t) :
  exists v, Headers.get h (lit "content-type") = Normal v.
Proof.
  unfold Headers.get, Headers.getAll.
  rewrite validateName_content_type. cbn [bind].
  destruct (Nat.eqb _ 0); eauto.
Qed.

Lemma consumeBody_used (k : N) (b : t) (e : option nat) :
  bodyUsed b = true ->
  consumeBody k b e = (b, rejected (TypeError body_used_already)).
Proof.
  unfold bodyUsed, consumeBody. now intros ->.
Qed.

Lemma consumeBody_disturbs (k : N) (b : t) (e : option nat) :
  bodyUsed (fst (consumeBody k b e)) = true.
Proof.
  unfold consumeBody, bodyUsed.
  destruct (disturbed (INTERNALS b)) eqn:D; [exact D|].
  cbn [error with_internals INTERNALS get_body body].
  destruct (error (INTERNALS b)); [reflexivity|].
  destruct (is_null _); [reflexivity|].
  destruct (body (INTERNALS b)); reflexivity.
Qed.


End BodyFacts.

Section DrainFacts.

Import Body.

Variable kMaxLength : N.
Variable data : t.







End DrainFacts.

Section StreamFacts.

Import Body.

Variable kMaxLength : N.
Variable data : t.


End StreamFacts.

(** ** C1: the consumption flag *)

(** C1. On an instance that was not used, a call of any accessor
    ([arrayBuffer], [blob], [json], [text], [buffer]) leaves [bodyUsed]
    true, whatever the promise settles to; a later call of any accessor
    on that instance is rejected with [BodyAlreadyConsumed] and leaves
    the instance as it is. *)
Theorem drain_sets_bodyUsed_once (kMaxLength : N)
  (Buffer_toString : Body.bytes -> jsstring) (json : Type)
  (JSON_parse : jsstring -> completion json)
  (first second : Body.accessor) (b : Body.t) (e e' : option nat) :
  Body.bodyUsed b = false ->
  let b1 := fst (Body.call kMaxLength Buffer_toString JSON_parse first b e) in
  Body.bodyUsed b1 = true /\
  Body.call kMaxLength Buffer_toString JSON_parse second b1 e'
  = (b1, Body.rejected BodyAlreadyConsumed).
Proof.
  intros Hb b1.
  assert (H1 : Body.bodyUsed b1 = true).
  { subst b1. destruct first; cbn [Body.call];
      unfold Body.arrayBuffer, Body.blob, Body.json_, Body.text, Body.buffer.
    2: { destruct (Body.headers b) as [h|].
         - destruct (get_content_type_total h) as [v ->]. cbn [bind].
           pose proof (consumeBody_disturbs kMaxLength b e) as D.
           destruct (Body.consumeBody kMaxLength b e). exact D.
         - cbn [bind].
           pose proof (consumeBody_disturbs kMaxLength b e) as D.
           destruct (Body.consumeBody kMaxLength b e). exact D. }
    all: pose proof (consumeBody_disturbs kMaxLength b e) as D;
      destruct (Body.consumeBody kMaxLength b e); exact D. }
  split; [exact H1|].
  pose proof (consumeBody_used kMaxLength b1 e' H1) as U.
  destruct second; cbn [Body.call];
    unfold Body.arrayBuffer, Body.blob, Body.json_, Body.text, Body.buffer.
  2: { destruct (Body.headers b1) as [h|].
       - destruct (get_content_type_total h) as [v ->]. cbn [bind].
         now rewrite U.
       - cbn [bind]. now rewrite U. }
  all: now rewrite U.
Qed.

(** The example of the specification: a body made from empty input,
    [text()] then [arrayBuffer()]. *)
Lemma drain_sets_bodyUsed_once_witness :
  let b := Body.new Body.null 0 0 in
  let text := Body.call 4294967296 (fun _ => []) (fun _ => Normal tt)
                Body.acc_text in
  let arrayBuffer := Body.call 4294967296 (fun _ => []) (fun _ => Normal tt)
                       Body.acc_arrayBuffer in
  Body.bodyUsed b = false /\
  Body.bodyUsed (fst (text b None)) = true /\
  arrayBuffer (fst (text b None)) None
  = (fst (text b None), Body.rejected BodyAlreadyConsumed).
Proof.
  split; [reflexivity|].
  apply (@drain_sets_bodyUsed_once 4294967296 (fun _ => []) unit
           (fun _ => Normal tt) Body.acc_text Body.acc_arrayBuffer
           (Body.new Body.null 0 0) None None).
  reflexivity.
Defined.

(** ** C2: the size limit *)




(** ** C7, C10: [extractContentType] and the body made from [undefined] *)

(** C7. [extractContentType] by the shape of its argument, in the order
    of the tests: [null] gives [null]; a string, the text type; form
    parameters, the form type; a blob, its type, or [null] when that is
    empty; a buffer, an array buffer or a view, [null]; an object with a
    [getBoundary] method, the multipart type with its boundary; any other
    stream, [null]; anything else, the text type.  [undefined] is not
    [null]: it is among the last and gives the text type. *)
Theorem extractContentType_by_shape (v : Body.value) :
  Body.extractContentType v =
  match v with
  | Body.null => None
  | Body.a_string _ => Some (lit "text/plain;charset=UTF-8")
  | Body.a_URLSearchParams _ =>
      Some (lit "application/x-www-form-urlencoded;charset=UTF-8")
  | Body.a_Blob b =>
      match Body.blob_type b with [] => None | type => Some type end
  | Body.a_Buffer _ | Body.an_ArrayBuffer _
  | Body.an_ArrayBufferView _ _ _ => None
  | Body.a_Stream s =>
      match Body.getBoundary (Body.methods_of s) with
      | Some boundary =>
          Some (lit "multipart/form-data;boundary=" ++ boundary)
      | None => None
      end
  | Body.another _ m =>
      match Body.getBoundary m with
      | Some boundary =>
          Some (lit "multipart/form-data;boundary=" ++ boundary)
      | None => Some (lit "text/plain;charset=UTF-8")
      end
  | Body.undefined => Some (lit "text/plain;charset=UTF-8")
  end.
Proof.
  destruct v as [| |s|s|b|b|b|b o l|s|s m]; try reflexivity.
  unfold Body.extractContentType. cbn.
  destruct (Body.blob_type b); reflexivity.
Qed.

(** C10. A body made from [undefined] holds the buffer of the nine bytes
    of the string undefined, not [null]; [consumeBody] resolves to these
    bytes, and [extractContentType] gives the text type for
    [undefined]. *)
Theorem undefined_body_is_its_name (kMaxLength size timeout : N)
  (expiry : option nat) :
  let b := Body.new Body.undefined size timeout in
  let name := List.map byte_of_ascii (list_ascii_of_string "undefined") in
  Body.get_body b = Body.a_Buffer name /\
  Body.get_body b <> Body.null /\
  List.length name = 9 /\
  snd (Body.consumeBody kMaxLength b expiry) = Body.fulfilled name /\
  snd (Body.consumeBody kMaxLength b expiry) <> Body.fulfilled [] /\
  Body.extractContentType Body.undefined = Some Body.text_plain /\
  Body.extractContentType Body.undefined <> None.
Proof.
  cbv zeta. repeat split; discriminate.
Qed.

(** ** C8: [getTotalBytes] *)

(** C8. [getTotalBytes] by the body of the instance: [null] gives 0; a
    blob, its size; a buffer, its length; an object with a
    [getLengthSync] method, that length when it has a [hasKnownLength]
    method that answers true, and [null] otherwise; any other stream,
    [null].  A blob of size 10 gives 10. *)
Theorem getTotalBytes_by_source (i : Body.t) :
  Body.getTotalBytes i =
  match Body.get_body i with
  | Body.null => Some 0%N
  | Body.a_Blob b => Some (Body.blob_size b)
  | Body.a_Buffer b => Some (N.of_nat (List.length b))
  | Body.a_Stream s =>
      match Body.getLengthSync (Body.methods_of s),
            Body.hasKnownLength (Body.methods_of s) with
      | Some len, Some true => Some len
      | _, _ => None
      end
  | Body.another _ m =>
      match Body.getLengthSync m, Body.hasKnownLength m with
      | Some len, Some true => Some len
      | _, _ => None
      end
  | _ => None
  end
  /\ (forall (type : jsstring) (s : Body.Stream) (size timeout : N),
        Body.getTotalBytes
          (Body.new
             (Body.a_Blob {| Body.blob_type := type; Body.blob_size := 10;
                             Body.blob_stream := s |}) size timeout)
        = Some 10%N)
  /\ (forall (emits : list Body.stream_event) (nth : nat) (hwm : option N)
             (s : Body.Stream) (size timeout : N),
        Body.getTotalBytes
          (Body.new (Body.a_Stream (Body.Readable emits Body.no_methods))
             size timeout) = None
        /\ Body.getTotalBytes
             (Body.new (Body.a_Stream (Body.PassThrough nth hwm s))
                size timeout)
           = None).
Proof.
  split; [|split; [reflexivity | split; reflexivity]].
  unfold Body.getTotalBytes.
  destruct (Body.get_body i) as [| |s|s|b|b|b|b o l|s|s m]; reflexivity.
Qed.

(** ** The grammar of header names and values *)

Section Grammar.

Local Open Scope N_scope.

Lemma in_range_iff (lo hi c : N) : in_range lo hi c = true <-> lo <= c <= hi.
Proof.
  unfold in_range. now rewrite andb_true_iff, !N.leb_le.
Qed.

Lemma in_range_false (lo hi c : N) :
  in_range lo hi c = false <-> c < lo \/ hi < c.
Proof.
  unfold in_range. rewrite andb_false_iff, !N.leb_gt. tauto.
Qed.

(** The value of [lower_unit], case by case. *)
Lemma lower_unit_cases (c : N) :
  (65 <= c <= 90 /\ lower_unit c = c + 32) \/
  (192 <= c <= 222 /\ c <> 215 /\ lower_unit c = c + 32) \/
  ((c < 65 \/ 90 < c) /\ (c < 192 \/ 222 < c \/ c = 215)
   /\ lower_unit c = c).
Proof.
  unfold lower_unit.
  destruct (in_range 65 90 c) eqn:A.
  - apply in_range_iff in A. now left.
  - apply in_range_false in A.
    destruct (in_range 192 222 c) eqn:B.
    + apply in_range_iff in B.
      destruct (N.eqb_spec c 215) as [E|E]; cbn [negb andb].
      * right; right. repeat split; try lia; auto.
      * right; left. repeat split; try lia; auto.
    + apply in_range_false in B. cbn [andb].
      right; right. repeat split; try lia; auto.
Qed.

Lemma canonicalize_cases (c : N) :
  (97 <= c <= 122 /\ canonicalize c = c - 32) \/
  ((c < 97 \/ 122 < c) /\ canonicalize c = c).
Proof.
  unfold canonicalize.
  destruct (in_range 97 122 c) eqn:A.
  - apply in_range_iff in A. now left.
  - apply in_range_false in A. now right.
Qed.

Ltac eval_codes :=
  repeat match goal with
  | |- context [Headers.code ?a] =>
      let v := eval vm_compute in (Headers.code a) in
      change (Headers.code a) with v
  end.

Lemma token_unit_iff (c : N) :
  Headers.token_unit c = true <->
  (48 <= c <= 57 \/ 65 <= c <= 90 \/ 97 <= c <= 122 \/
   c = 33 \/ c = 35 \/ c = 36 \/ c = 37 \/ c = 38 \/ c = 39 \/ c = 42 \/
   c = 43 \/ c = 45 \/ c = 46 \/ c = 95 \/ c = 96 \/ c = 124 \/
   c = 126).
Proof.
  unfold Headers.token_unit, Headers.word_unit, Headers.is_char.
  eval_codes.
  rewrite !orb_true_iff, !in_range_iff, !N.eqb_eq. lia.
Qed.

Lemma header_unit_iff (c : N) :
  Headers.header_unit c = true <->
  (c = 9 \/ 32 <= c <= 126 \/ 128 <= c <= 255).
Proof.
  unfold Headers.header_unit.
  rewrite !orb_true_iff, !in_range_iff, !N.eqb_eq. tauto.
Qed.

End Grammar.

Section NamesAndValues.

Local Open Scope N_scope.

Lemma toUSVString_small (s : jsstring) :
  Forall (fun c => c < 55296) s -> toUSVString s = s.
Proof.
  induction 1 as [|c s Hc Hs IH]; [reflexivity|].
  cbn [toUSVString]. unfold is_lead, is_trail.
  replace (in_range 55296 56319 c) with false
    by (symmetry; apply in_range_false; lia).
  replace (in_range 56320 57343 c) with false
    by (symmetry; apply in_range_false; lia).
  now rewrite IH.
Qed.

Lemma invalidTokenRegex_false (s : jsstring) :
  Headers.invalidTokenRegex s = false <->
  Forall (fun c => Headers.token_unit c = true) s.
Proof.
  unfold Headers.invalidTokenRegex.
  induction s as [|c s IH]; cbn [existsb].
  - split; [constructor|reflexivity].
  - rewrite orb_false_iff, negb_false_iff, IH.
    split; [intros [? ?]; now constructor|now inversion 1].
Qed.

Lemma invalidHeaderCharRegex_false (s : jsstring) :
  Headers.invalidHeaderCharRegex s = false <->
  Forall (fun c => Headers.header_unit c = true) s.
Proof.
  unfold Headers.invalidHeaderCharRegex.
  induction s as [|c s IH]; cbn [existsb].
  - split; [constructor|reflexivity].
  - rewrite orb_false_iff, negb_false_iff, IH.
    split; [intros [? ?]; now constructor|now inversion 1].
Qed.

Lemma validateName_Normal (name : jsstring) :
  Headers.validateName name = Normal tt <->
  name <> [] /\ Forall (fun c => Headers.token_unit c = true) name.
Proof.
  unfold Headers.validateName. rewrite <- invalidTokenRegex_false.
  destruct (Headers.invalidTokenRegex name).
  - cbn. split; [discriminate|intros [_ ?]; discriminate].
  - cbn [orb]. destruct name as [|c name]; cbn [str_eqb].
    + split; [discriminate|intros [? _]; congruence].
    + split; [split; [discriminate|reflexivity]|reflexivity].
Qed.

Lemma validateName_Throw (name : jsstring) (e : js_error) :
  Headers.validateName name = Throw e -> e = InvalidHeaderName name.
Proof.
  unfold Headers.validateName.
  destruct (_ || _); [now intros [= <-]|discriminate].
Qed.

Lemma validateValue_Normal (value : jsstring) :
  Headers.validateValue value = Normal tt <->
  Forall (fun c => Headers.header_unit c = true) value.
Proof.
  unfold Headers.validateValue. rewrite <- invalidHeaderCharRegex_false.
  destruct (Headers.invalidHeaderCharRegex value);
    split; try reflexivity; discriminate.
Qed.

Lemma validateValue_Throw (value : jsstring) (e : js_error) :
  Headers.validateValue value = Throw e -> e = InvalidHeaderValue value.
Proof.
  unfold Headers.validateValue.
  destruct (Headers.invalidHeaderCharRegex value);
    [now intros [= <-]|discriminate].
Qed.

Lemma lower_unit_idempotent (c : N) : lower_unit (lower_unit c) = lower_unit c.
Proof.
  destruct (lower_unit_cases c) as [[H E]|[[H [H' E]]|[H [H' E]]]];
    rewrite E.
  1, 2: destruct (lower_unit_cases (c + 32))
          as [[K F]|[[K [K' F]]|[K [K' F]]]]; try lia; exact F.
  exact E.
Qed.

Lemma toLowerCase_idempotent (s : jsstring) :
  toLowerCase (toLowerCase s) = toLowerCase s.
Proof.
  unfold toLowerCase. rewrite map_map. apply map_ext.
  apply lower_unit_idempotent.
Qed.

Lemma toLowerCase_app (a b : jsstring) :
  toLowerCase (a ++ b) = toLowerCase a ++ toLowerCase b.
Proof. apply map_app. Qed.

Lemma lower_unit_token (c : N) :
  Headers.token_unit c = true -> Headers.token_unit (lower_unit c) = true.
Proof.
  rewrite !token_unit_iff.
  destruct (lower_unit_cases c) as [[H ->]|[[H [H' ->]]|[H [H' ->]]]]; lia.
Qed.

(** Two units with the same lower case are tokens together. *)
Lemma lower_unit_token_inv (c c' : N) :
  lower_unit c' = lower_unit c ->
  Headers.token_unit c = true -> Headers.token_unit c' = true.
Proof.
  rewrite !token_unit_iff.
  destruct (lower_unit_cases c) as [[H ->]|[[H [H' ->]]|[H [H' ->]]]];
    destruct (lower_unit_cases c') as [[K ->]|[[K [K' ->]]|[K [K' ->]]]];
    lia.
Qed.

Lemma lower_unit_header (c : N) :
  Headers.header_unit c = true -> Headers.header_unit (lower_unit c) = true.
Proof.
  rewrite !header_unit_iff.
  destruct (lower_unit_cases c) as [[H ->]|[[H [H' ->]]|[H [H' ->]]]]; lia.
Qed.

Lemma token_unit_small (c : N) : Headers.token_unit c = true -> c < 55296.
Proof. rewrite token_unit_iff. lia. Qed.

Lemma header_unit_small (c : N) : Headers.header_unit c = true -> c < 55296.
Proof. rewrite header_unit_iff. lia. Qed.

End NamesAndValues.

Section HeaderFacts.

Lemma Forall_map_iff {A B : Type} (f : A -> B) (P : B -> Prop) (l : list A) :
  Forall P (List.map f l) <-> Forall (fun x => P (f x)) l.
Proof.
  induction l as [|x l IH]; cbn; [split; constructor|].
  split; inversion 1; subst; constructor; auto; now apply IH.
Qed.

Lemma validateName_toLowerCase (name : jsstring) :
  Headers.validateName name = Normal tt ->
  Headers.validateName (toLowerCase name) = Normal tt.
Proof.
  rewrite !validateName_Normal. intros [Hn Hf]. split.
  - destruct name; [congruence|discriminate].
  - unfold toLowerCase. apply Forall_map_iff.
    eapply Forall_impl; [|exact Hf]. apply lower_unit_token.
Qed.

(** A name is legal together with the names that differ from it in
    letter case only. *)
Lemma validateName_same_lower (name name' : jsstring) :
  toLowerCase name' = toLowerCase name ->
  Headers.validateName name = Normal tt ->
  Headers.validateName name' = Normal tt.
Proof.
  rewrite !validateName_Normal. intros E [Hn Hf]. split.
  - intros ->. destruct name; [congruence|discriminate].
  - clear Hn. revert name' E.
    induction Hf as [|c name Hc Hf IH]; intros [|c' name'] E;
      try discriminate; constructor.
    + injection E as E _. now apply (lower_unit_token_inv c c').
    + apply IH. now injection E.
Qed.

Lemma toUSVString_name (name : jsstring) :
  Headers.validateName name = Normal tt -> toUSVString name = name.
Proof.
  rewrite validateName_Normal. intros [_ Hf].
  apply toUSVString_small.
  eapply Forall_impl; [|exact Hf]. apply token_unit_small.
Qed.

Lemma toUSVString_value (value : jsstring) :
  Headers.validateValue value = Normal tt -> toUSVString value = value.
Proof.
  rewrite validateValue_Normal. intros Hf.
  apply toUSVString_small.
  eapply Forall_impl; [|exact Hf]. apply header_unit_small.
Qed.

Lemma toUSVString_lower_name (name : jsstring) :
  Headers.validateName name = Normal tt ->
  toUSVString (toLowerCase name) = toLowerCase name.
Proof.
  intros H. now apply toUSVString_name, validateName_toLowerCase.
Qed.

(** What the intercepted methods do with legal arguments. *)
Lemma append_Normal (h : Headers.t) (name value : jsstring) :
  Headers.validateName name = Normal tt ->
  Headers.validateValue value = Normal tt ->
  Headers.append h name value = Normal (h ++ [(toLowerCase name, value)]).
Proof.
  intros Hn Hv. unfold Headers.append, URLSearchParams.append.
  rewrite Hn, Hv. cbn [bind].
  now rewrite toUSVString_lower_name, toUSVString_value.
Qed.

Lemma getAll_Normal (h : Headers.t) (name : jsstring) :
  Headers.validateName name = Normal tt ->
  Headers.getAll h name
  = Normal (List.map snd
              (List.filter (fun p => str_eqb (fst p) (toLowerCase name)) h)).
Proof.
  intros Hn. unfold Headers.getAll, URLSearchParams.getAll.
  rewrite Hn. cbn [bind]. now rewrite toUSVString_lower_name.
Qed.

Lemma get_of_getAll (h : Headers.t) (name : jsstring)
  (values : list jsstring) :
  Headers.getAll h name = Normal values ->
  Headers.get h name =
  Normal
    match values with
    | [] => None
    | _ :: _ =>
        Some (if Headers.content_encoding_regex name
              then toLowerCase (join (lit ", ") values)
              else join (lit ", ") values)
    end.
Proof.
  intros H. unfold Headers.get. rewrite H. cbn [bind].
  now destruct values.
Qed.

Lemma join_snoc (sep : jsstring) (l : list jsstring) (v : jsstring) :
  exists pre, join sep (l ++ [v]) = pre ++ v.
Proof.
  induction l as [|x l [pre IH]].
  - now exists [].
  - exists (x ++ sep ++ pre).
    change (join sep (x :: (l ++ [v])) = (x ++ sep ++ pre) ++ v).
    cbn [join]. destruct (l ++ [v]) eqn:E.
    + now destruct l.
    + rewrite IH. now rewrite <- !app_assoc.
Qed.

Lemma includes_suffix (pre v : jsstring) : includes (pre ++ v) v = true.
Proof.
  rewrite <- (app_nil_r v) at 1. apply includes_app.
Qed.

End HeaderFacts.

Lemma filter_absent (h : Headers.t) (n : jsstring) :
  (forall p, In p h -> fst p <> n) ->
  List.filter (fun p => str_eqb (fst p) n) h = [].
Proof.
  induction h as [|p h IH]; intros Hnone; [reflexivity|].
  cbn [filter]. destruct (str_eqb (fst p) n) eqn:E.
  - apply str_eqb_eq in E. exfalso. apply (Hnone p); [now left|exact E].
  - apply IH. intros q Hq. apply Hnone. now right.
Qed.

(** ** C4: [append], [getAll] and [get] *)

(** The value of an upper-case [Content-Encoding] is not part of what
    [get] returns. *)
Lemma appended_GZIP_is_not_returned :
  (h <- Headers.append [] (lit "Content-Encoding") (lit "GZIP") ;;
   Headers.get h (lit "content-encoding")) = Normal (Some (lit "gzip")) /\
  Headers.validateName (lit "Content-Encoding") = Normal tt /\
  Headers.validateValue (lit "GZIP") = Normal tt /\
  includes (lit "gzip") (lit "GZIP") = false.
Proof. repeat split. Qed.

(** C4 (amended). For a legal name and legal values, and [name'] the name
    in any letter case: after [append] of a value, [get] returns a string
    that contains the value, in lower case when the name it is asked for
    is [content-encoding] in any letter case; after [append] of two
    values to a list with [values] under that name, [getAll] returns
    [values] followed by the two, and [get] their join by a comma and a
    space (in lower case for [content-encoding]), which for a list with
    no value under the name is [v1, v2]; and [get] returns [null] when no
    pair of the list has the name in lower case. *)
Theorem append_then_get (h : Headers.t) (name name' v1 v2 : jsstring) :
  Headers.validateName name = Normal tt ->
  Headers.validateValue v1 = Normal tt ->
  Headers.validateValue v2 = Normal tt ->
  toLowerCase name' = toLowerCase name ->
  let shown (s : jsstring) :=
    if Headers.content_encoding_regex name' then toLowerCase s else s in
  let values := URLSearchParams.getAll h (toLowerCase name) in
  (exists h1 result,
     Headers.append h name v1 = Normal h1 /\
     Headers.get h1 name' = Normal (Some result) /\
     includes result (shown v1) = true) /\
  (exists h1 h2,
     Headers.append h name v1 = Normal h1 /\
     Headers.append h1 name v2 = Normal h2 /\
     Headers.getAll h2 name' = Normal (values ++ [v1; v2]) /\
     Headers.get h2 name'
     = Normal (Some (shown (join (lit ", ") (values ++ [v1; v2])))) /\
     (values = [] ->
      List.length (values ++ [v1; v2]) = 2 /\
      Headers.get h2 name' = Normal (Some (shown (v1 ++ lit ", " ++ v2))))) /\
  ((forall p, In p h -> fst p <> toLowerCase name) ->
   Headers.get h name' = Normal None).
Proof.
  intros Hn Hv1 Hv2 Hl shown values.
  pose proof (validateName_same_lower name name' Hl Hn) as Hn'.
  assert (G : forall h0, Headers.getAll h0 name'
              = Normal (List.map snd
                  (List.filter
                     (fun p => str_eqb (fst p) (toLowerCase name)) h0))).
  { intros h0. rewrite (getAll_Normal h0 name' Hn'). now rewrite Hl. }
  assert (V : values
              = List.map snd
                  (List.filter
                     (fun p => str_eqb (fst p) (toLowerCase name)) h)).
  { unfold values, URLSearchParams.getAll.
    now rewrite (toUSVString_lower_name name Hn). }
  split; [|split].
  - exists (h ++ [(toLowerCase name, v1)]).
    destruct (join_snoc (lit ", ") values v1) as [pre J].
    exists (shown (pre ++ v1)).
    split; [now apply append_Normal|]. split.
    + rewrite (get_of_getAll _ _ (G _)).
      rewrite filter_app, map_app. cbn [filter fst].
      rewrite str_eqb_refl. cbn [map snd]. rewrite <- V, <- J.
      now destruct (values ++ [v1]) eqn:E; [destruct values|].
    + unfold shown. destruct (Headers.content_encoding_regex name').
      * rewrite toLowerCase_app. apply includes_suffix.
      * apply includes_suffix.
  - exists (h ++ [(toLowerCase name, v1)]).
    exists ((h ++ [(toLowerCase name, v1)]) ++ [(toLowerCase name, v2)]).
    split; [now apply append_Normal|].
    split; [now apply append_Normal|].
    assert (G2 : Headers.getAll
                   ((h ++ [(toLowerCase name, v1)])
                      ++ [(toLowerCase name, v2)]) name'
                 = Normal (values ++ [v1; v2])).
    { rewrite G, !filter_app, !map_app. cbn [filter fst].
      rewrite str_eqb_refl. cbn [map snd].
      now rewrite <- V, <- app_assoc. }
    split; [exact G2|].
    assert (R : Headers.get
                  ((h ++ [(toLowerCase name, v1)])
                     ++ [(toLowerCase name, v2)]) name'
                = Normal (Some (shown (join (lit ", ") (values ++ [v1; v2]))))).
    { rewrite (get_of_getAll _ _ G2).
      now destruct (values ++ [v1; v2]) eqn:E; [destruct values|]. }
    split; [exact R|].
    intros E. rewrite R, E. split; reflexivity.
  - intros Hnone. rewrite (get_of_getAll _ _ (G h)).
    now rewrite (@filter_absent h (toLowerCase name) Hnone).
Qed.

(** [append('X-Foo', '1')] then [get('x-foo')] on any list without that
    name, as in the specification. *)
Lemma append_then_get_witness :
  let h := [(lit "accept", lit "*/*")] in
  (exists h1 result,
     Headers.append h (lit "X-Foo") (lit "1") = Normal h1 /\
     Headers.get h1 (lit "x-foo") = Normal (Some result) /\
     includes result (lit "1") = true) /\
  (exists h1 h2,
     Headers.append h (lit "X-Foo") (lit "1") = Normal h1 /\
     Headers.append h1 (lit "X-Foo") (lit "2") = Normal h2 /\
     Headers.getAll h2 (lit "x-foo") = Normal [lit "1"; lit "2"] /\
     Headers.get h2 (lit "x-foo") = Normal (Some (lit "1, 2")) /\
     (@nil jsstring = [] ->
      2 = 2 /\ Headers.get h2 (lit "x-foo") = Normal (Some (lit "1, 2")))) /\
  ((forall p, In p h -> fst p <> lit "x-foo") ->
   Headers.get h (lit "x-foo") = Normal None).
Proof.
  exact (@append_then_get [(lit "accept", lit "*/*")] (lit "X-Foo")
           (lit "x-foo") (lit "1") (lit "2")
           eq_refl eq_refl eq_refl eq_refl).
Defined.

(** ** C6: the value of [content-encoding] *)

Section ContentEncoding.

Local Open Scope N_scope.

(** Against an ASCII unit, two units are equal after [canonicalize]
    exactly when they are equal in lower case. *)
Lemma canonicalize_lower_unit (c p : N) :
  p < 128 ->
  (canonicalize c = canonicalize p <-> lower_unit c = lower_unit p).
Proof.
  intros Hp.
  destruct (canonicalize_cases c) as [[A ->]|[A ->]];
    destruct (canonicalize_cases p) as [[B ->]|[B ->]];
    destruct (lower_unit_cases c) as [[H ->]|[[H [H' ->]]|[H [H' ->]]]];
    destruct (lower_unit_cases p) as [[K ->]|[[K [K' ->]]|[K [K' ->]]]];
    lia.
Qed.

Lemma canonicalize_toLowerCase (s pattern : jsstring) :
  Forall (fun p => p < 128) pattern ->
  (List.map canonicalize s = List.map canonicalize pattern
   <-> toLowerCase s = toLowerCase pattern).
Proof.
  intros Hp. revert s.
  induction Hp as [|p pattern Hp Hf IH]; intros [|c s]; cbn;
    try (split; [reflexivity|reflexivity]); try (split; discriminate).
  split; intros [= E1 E2]; f_equal.
  - now apply canonicalize_lower_unit.
  - now apply IH.
  - now apply canonicalize_lower_unit.
  - now apply IH.
Qed.

(** The test of [get] succeeds exactly for the names that are
    [content-encoding] in lower case. *)
Lemma content_encoding_regex_iff (name : jsstring) :
  Headers.content_encoding_regex name = true
  <-> toLowerCase name = lit "content-encoding".
Proof.
  unfold Headers.content_encoding_regex. rewrite str_eqb_eq.
  rewrite canonicalize_toLowerCase; [reflexivity|].
  repeat constructor.
Qed.

End ContentEncoding.

(** C6. When [getAll] finds values for a name, [get] returns their join
    by a comma and a space: in lower case when the name is
    [content-encoding] in any letter case, unchanged for any other
    name. *)
Theorem get_lowercases_content_encoding (h : Headers.t) (name : jsstring)
  (values : list jsstring) :
  Headers.getAll h name = Normal values ->
  values <> [] ->
  (toLowerCase name = lit "content-encoding" ->
   Headers.get h name
   = Normal (Some (toLowerCase (join (lit ", ") values)))) /\
  (toLowerCase name <> lit "content-encoding" ->
   Headers.get h name = Normal (Some (join (lit ", ") values))).
Proof.
  intros G Hv. rewrite (get_of_getAll _ _ G).
  destruct values as [|v values]; [congruence|].
  split; intros E.
  - apply content_encoding_regex_iff in E. now rewrite E.
  - destruct (Headers.content_encoding_regex name) eqn:R; [|reflexivity].
    apply content_encoding_regex_iff in R. contradiction.
Qed.

(** The value stored as GZIP, asked for as [Content-Encoding]. *)
Lemma get_lowercases_content_encoding_witness :
  let h := [(lit "content-encoding", lit "GZIP")] in
  (toLowerCase (lit "Content-Encoding") = lit "content-encoding" ->
   Headers.get h (lit "Content-Encoding") = Normal (Some (lit "gzip"))) /\
  (toLowerCase (lit "Content-Encoding") <> lit "content-encoding" ->
   Headers.get h (lit "Content-Encoding") = Normal (Some (lit "GZIP"))).
Proof.
  apply (@get_lowercases_content_encoding
           [(lit "content-encoding", lit "GZIP")] (lit "Content-Encoding")
           [lit "GZIP"]).
  - reflexivity.
  - discriminate.
Defined.

(** ** C3: [createHeadersLenient] *)

Section Lenient.

Lemma fold_lenient_step (object : list (jsstring * Headers.field))
  (acc : list (list jsstring)) :
  List.fold_left Headers.lenient_step object acc
  = acc ++ List.map (fun p => [fst p; snd p])
             (List.flat_map lenient_pairs object).
Proof.
  revert acc. induction object as [|[name value] object IH]; intros acc.
  - cbn. now rewrite app_nil_r.
  - cbn [fold_left flat_map]. rewrite IH, map_app, app_assoc. f_equal.
    unfold Headers.lenient_step, lenient_pairs. cbn [fst snd].
    destruct (_ && _); [|now rewrite app_nil_r].
    destruct value as [v|vs]; [reflexivity|].
    now rewrite map_map.
Qed.

Lemma mapM_check_tuple (l : list (jsstring * jsstring)) :
  mapM Headers.check_tuple (List.map (fun p => [fst p; snd p]) l) = Normal l.
Proof.
  induction l as [|[n v] l IH]; [reflexivity|].
  cbn [map mapM Headers.check_tuple fst snd bind]. now rewrite IH.
Qed.

Lemma In_join_incl (sep v : jsstring) (vs : list jsstring) :
  In v vs -> incl v (join sep vs).
Proof.
  induction vs as [|x vs IH]; [contradiction|].
  intros [->|H] c Hc.
  - cbn [join]. destruct vs; [exact Hc|]. apply in_or_app. now left.
  - cbn [join]. destruct vs as [|y vs]; [contradiction|].
    apply in_or_app. right. apply in_or_app. right. now apply IH.
Qed.

Lemma invalidHeaderCharRegex_join (v : jsstring) (vs : list jsstring) :
  In v vs ->
  Headers.invalidHeaderCharRegex (join (lit ",") vs) = false ->
  Headers.invalidHeaderCharRegex v = false.
Proof.
  intros Hin. rewrite !invalidHeaderCharRegex_false, !Forall_forall.
  intros H c Hc. apply H. now apply (@In_join_incl (lit ",") v vs Hin).
Qed.

(** The pairs kept have a name of token units and a legal value. *)
Lemma lenient_pairs_legal (entry : jsstring * Headers.field)
  (p : jsstring * jsstring) :
  In p (lenient_pairs entry) ->
  fst p = fst entry /\
  Headers.invalidTokenRegex (fst p) = false /\
  Headers.validateValue (snd p) = Normal tt.
Proof.
  unfold lenient_pairs.
  destruct (Headers.invalidTokenRegex (fst entry)) eqn:T; [contradiction|].
  destruct (Headers.invalidHeaderCharRegex _) eqn:V; [contradiction|].
  cbn [negb andb].
  assert (C : forall v, Headers.invalidHeaderCharRegex v = false ->
                        Headers.validateValue v = Normal tt).
  { intros v Hv. unfold Headers.validateValue. now rewrite Hv. }
  destruct (snd entry) as [v|vs].
  - intros [<-|[]]. cbn [fst snd]. auto.
  - intros Hin. apply in_map_iff in Hin. destruct Hin as [v [<- Hin]].
    cbn [fst snd]. repeat split; auto.
    apply C. now apply (@invalidHeaderCharRegex_join v vs).
Qed.

(** The constructor on pairs of that kind: it throws for the first pair
    with an empty name, and lowercases the names when there is none. *)
Lemma mapM_validate_legal (l : list (jsstring * jsstring)) :
  (forall p, In p l -> Headers.invalidTokenRegex (fst p) = false
                       /\ Headers.validateValue (snd p) = Normal tt) ->
  mapM Headers.validate_and_lowercase l =
  if List.existsb (fun p => str_eqb (fst p) []) l
  then Throw (InvalidHeaderName [])
  else Normal (List.map (fun p => (toLowerCase (fst p), snd p)) l).
Proof.
  induction l as [|p l IH]; intros H; [reflexivity|].
  destruct (H p (or_introl eq_refl)) as [Hn Hv].
  cbn [mapM existsb map]. unfold Headers.validate_and_lowercase at 1.
  unfold Headers.validateName. rewrite Hn, Hv. cbn [orb].
  destruct (str_eqb (fst p) []) eqn:E.
  - apply str_eqb_eq in E. now rewrite E.
  - cbn [bind orb]. rewrite IH by (intros q Hq; apply H; now right).
    now destruct (existsb _ l).
Qed.

Lemma new_lowercased (l : list (jsstring * jsstring)) :
  (forall p, In p l -> Headers.invalidTokenRegex (fst p) = false
                       /\ fst p <> []
                       /\ Headers.validateValue (snd p) = Normal tt) ->
  URLSearchParams.new (List.map (fun p => (toLowerCase (fst p), snd p)) l)
  = List.map (fun p => (toLowerCase (fst p), snd p)) l.
Proof.
  intros H. unfold URLSearchParams.new. rewrite map_map.
  apply map_ext_in. intros p Hp. cbn [fst snd].
  destruct (H p Hp) as [Hn [He Hv]].
  assert (N : Headers.validateName (fst p) = Normal tt).
  { apply validateName_Normal. split; [exact He|].
    now apply invalidTokenRegex_false. }
  now rewrite (@toUSVString_lower_name (fst p) N),
              (@toUSVString_value (snd p) Hv).
Qed.

(** [createHeadersLenient], by the pairs it keeps. *)
Lemma createHeadersLenient_by_pairs (object : list (jsstring * Headers.field)) :
  Headers.createHeadersLenient object =
  if List.existsb (fun p => str_eqb (fst p) [])
       (List.flat_map lenient_pairs object)
  then Throw (InvalidHeaderName [])
  else Normal (List.map (fun p => (toLowerCase (fst p), snd p))
                 (List.flat_map lenient_pairs object)).
Proof.
  unfold Headers.createHeadersLenient, Headers.new.
  rewrite fold_lenient_step. cbn [app]. rewrite mapM_check_tuple.
  cbn [bind].
  assert (L : forall p, In p (List.flat_map lenient_pairs object) ->
                Headers.invalidTokenRegex (fst p) = false
                /\ Headers.validateValue (snd p) = Normal tt).
  { intros p Hp. apply in_flat_map in Hp. destruct Hp as [entry [_ Hp]].
    now destruct (@lenient_pairs_legal entry p Hp) as [_ ?]. }
  rewrite (@mapM_validate_legal _ L).
  destruct (existsb _ _) eqn:E; [reflexivity|].
  cbn [bind]. rewrite new_lowercased; [reflexivity|].
  intros p Hp. destruct (L p Hp) as [Hn Hv]. repeat split; auto.
  intros Hempty.
  assert (X : List.existsb (fun p => str_eqb (fst p) [])
                (List.flat_map lenient_pairs object) = true).
  { apply existsb_exists. exists p. split; [exact Hp|].
    now apply str_eqb_eq. }
  congruence.
Qed.

End Lenient.

(** C3. [createHeadersLenient] throws when the record has a property
    whose name is the empty string and whose value is a string, or a
    non-empty array, of legal units: the pair is not discarded, and the
    constructor rejects the name. *)
Theorem createHeadersLenient_throws_on_empty_name
  (object : list (jsstring * Headers.field)) (value : Headers.field) :
  In ([], value) object ->
  Headers.invalidHeaderCharRegex (Headers.String_of_field value) = false ->
  value <> Headers.many [] ->
  Headers.createHeadersLenient object = Throw (InvalidHeaderName []).
Proof.
  intros Hin Hv Hne. rewrite createHeadersLenient_by_pairs.
  replace (List.existsb _ _) with true; [reflexivity|].
  symmetry. apply existsb_exists.
  assert (K : exists v, In ([], v) (lenient_pairs ([], value))).
  { unfold lenient_pairs. cbn [fst snd]. rewrite Hv.
    cbn [Headers.invalidTokenRegex existsb negb andb].
    destruct value as [v|[|v vs]]; [exists v; now left|congruence|].
    exists v. now left. }
  destruct K as [v K]. exists ([], v). split; [|reflexivity].
  apply in_flat_map. now exists ([], value).
Qed.

(** The record with the one property [''] of value [x]. *)
Lemma createHeadersLenient_throws_on_empty_name_witness :
  Headers.createHeadersLenient [([], Headers.one (lit "x"))]
  = Throw (InvalidHeaderName []).
Proof.
  apply (@createHeadersLenient_throws_on_empty_name
           [([], Headers.one (lit "x"))] (Headers.one (lit "x"))).
  - simpl. left. reflexivity.
  - reflexivity.
  - discriminate.
Defined.

(** ** The list underneath: [set], [delete], [has] *)

Section ListFacts.

Import URLSearchParams.

Lemma filter_delete_same (l : t) (n : jsstring) :
  List.filter (fun p => str_eqb (fst p) n)
    (List.filter (fun p => negb (str_eqb (fst p) n)) l) = [].
Proof.
  induction l as [|p l IH]; [reflexivity|].
  cbn [filter]. destruct (str_eqb (fst p) n) eqn:E; cbn [negb]; [exact IH|].
  cbn [filter]. now rewrite E.
Qed.

Lemma filter_delete_other (l : t) (n m : jsstring) :
  m <> n ->
  List.filter (fun p => str_eqb (fst p) m)
    (List.filter (fun p => negb (str_eqb (fst p) n)) l)
  = List.filter (fun p => str_eqb (fst p) m) l.
Proof.
  intros Hm. induction l as [|p l IH]; [reflexivity|].
  cbn [filter]. destruct (str_eqb (fst p) n) eqn:E; cbn [negb].
  - apply str_eqb_eq in E. rewrite E.
    replace (str_eqb n m) with false
      by (symmetry; apply str_eqb_neq; congruence).
    exact IH.
  - cbn [filter]. now rewrite IH.
Qed.

Lemma filter_set_first_same (l : t) (n v : jsstring) :
  List.existsb (fun p => str_eqb (fst p) n) l = true ->
  List.filter (fun p => str_eqb (fst p) n) (set_first l n v) = [(n, v)].
Proof.
  induction l as [|p l IH]; [discriminate|].
  cbn [existsb set_first]. destruct (str_eqb (fst p) n) eqn:E.
  - intros _. apply str_eqb_eq in E. rewrite E. cbn [filter fst].
    rewrite str_eqb_refl. f_equal. apply filter_delete_same.
  - cbn [orb filter]. rewrite E. apply IH.
Qed.

Lemma filter_set_first_other (l : t) (n m v : jsstring) :
  m <> n ->
  List.filter (fun p => str_eqb (fst p) m) (set_first l n v)
  = List.filter (fun p => str_eqb (fst p) m) l.
Proof.
  intros Hm. induction l as [|p l IH]; [reflexivity|].
  cbn [set_first]. destruct (str_eqb (fst p) n) eqn:E.
  - apply str_eqb_eq in E. cbn [filter fst]. rewrite E.
    replace (str_eqb n m) with false
      by (symmetry; apply str_eqb_neq; congruence).
    now apply filter_delete_other.
  - cbn [filter]. now rewrite IH.
Qed.

Lemma existsb_filter_nil (l : t) (n : jsstring) :
  List.existsb (fun p => str_eqb (fst p) n) l = false
  <-> List.filter (fun p => str_eqb (fst p) n) l = [].
Proof.
  induction l as [|p l IH]; [now split|].
  cbn [existsb filter]. destruct (str_eqb (fst p) n); cbn [orb].
  - split; discriminate.
  - exact IH.
Qed.

Lemma In_set_first (l : t) (n v : jsstring) (q : jsstring * jsstring) :
  In q (set_first l n v) -> In q l \/ q = (n, v).
Proof.
  induction l as [|p l IH]; [contradiction|].
  cbn [set_first]. destruct (str_eqb (fst p) n) eqn:E.
  - apply str_eqb_eq in E. intros [<-|H].
    + right. now rewrite E.
    + left. right. now apply filter_In in H.
  - intros [<-|H]; [left; now left|].
    destruct (IH H); [left; now right|now right].
Qed.

End ListFacts.

Lemma mapM_Normal {A B : Type} (f : A -> completion B) (l : list A)
  (l' : list B) :
  mapM f l = Normal l' -> Forall2 (fun x y => f x = Normal y) l l'.
Proof.
  revert l'. induction l as [|x l IH]; intros l'.
  - intros [= <-]. constructor.
  - cbn [mapM]. destruct (f x) as [y|e] eqn:F; [|discriminate].
    cbn [bind]. destruct (mapM f l) as [ys|e]; [|discriminate].
    cbn [bind]. intros [= <-]. constructor; auto.
Qed.

Lemma mapM_Throw {A B : Type} (f : A -> completion B) (l : list A)
  (e : js_error) :
  mapM f l = Throw e ->
  exists pre x post,
    l = pre ++ x :: post /\ f x = Throw e /\
    Forall (fun y => exists r, f y = Normal r) pre.
Proof.
  induction l as [|x l IH]; [discriminate|].
  cbn [mapM]. destruct (f x) as [y|e'] eqn:F.
  - cbn [bind]. destruct (mapM f l) as [ys|e'']; [discriminate|].
    cbn [bind]. intros [= <-]. destruct (IH eq_refl) as (pre & z & post & -> & Hz & Hpre).
    exists (x :: pre), z, post. repeat split; auto.
    constructor; eauto.
  - cbn [bind]. intros [= <-]. exists [], x, l. repeat split; auto.
Qed.

(** ** Illegal names and values *)

Lemma validateName_illegal (name : jsstring) :
  name = [] \/ (exists c, In c name /\ Headers.token_unit c = false) ->
  Headers.validateName name = Throw (InvalidHeaderName name).
Proof.
  intros H. unfold Headers.validateName.
  replace (Headers.invalidTokenRegex name || str_eqb name []) with true;
    [reflexivity|].
  symmetry. apply orb_true_iff. destruct H as [->|[c [Hc Ht]]].
  - now right.
  - left. apply existsb_exists. exists c. split; [exact Hc|].
    now rewrite Ht.
Qed.

Lemma validateValue_illegal (value : jsstring) :
  (exists c, In c value /\ Headers.header_unit c = false) ->
  Headers.validateValue value = Throw (InvalidHeaderValue value).
Proof.
  intros [c [Hc Ht]]. unfold Headers.validateValue.
  replace (Headers.invalidHeaderCharRegex value) with true; [reflexivity|].
  symmetry. apply existsb_exists. exists c. split; [exact Hc|].
  now rewrite Ht.
Qed.

(** X1. A name that is empty or holds a unit outside the token class is
    rejected with [InvalidHeaderName] by every method that takes a name
    ([append], [set], [delete], [has], [getAll], [get]) and by the
    constructor, whatever the list and the value. *)
Theorem illegal_name_is_rejected (h : Headers.t) (name value : jsstring) :
  name = [] \/ (exists c, In c name /\ Headers.token_unit c = false) ->
  Headers.append h name value = Throw (InvalidHeaderName name) /\
  Headers.set h name value = Throw (InvalidHeaderName name) /\
  Headers.delete h name = Throw (InvalidHeaderName name) /\
  Headers.has h name = Throw (InvalidHeaderName name) /\
  Headers.getAll h name = Throw (InvalidHeaderName name) /\
  Headers.get h name = Throw (InvalidHeaderName name) /\
  Headers.new (Headers.init_record [(name, value)])
  = Throw (InvalidHeaderName name) /\
  Headers.new (Headers.init_sequence [[name; value]])
  = Throw (InvalidHeaderName name).
Proof.
  intros H. apply validateName_illegal in H.
  unfold Headers.append, Headers.set, Headers.delete, Headers.has,
    Headers.get, Headers.getAll, Headers.new.
  cbn [mapM Headers.check_tuple bind].
  unfold Headers.validate_and_lowercase. cbn [fst snd].
  rewrite H. repeat split.
Qed.

Lemma illegal_name_is_rejected_witness :
  Headers.append [] (lit "a b") (lit "x") = Throw (InvalidHeaderName (lit "a b")) /\
  Headers.set [] (lit "a b") (lit "x") = Throw (InvalidHeaderName (lit "a b")) /\
  Headers.delete [] (lit "a b") = Throw (InvalidHeaderName (lit "a b")) /\
  Headers.has [] (lit "a b") = Throw (InvalidHeaderName (lit "a b")) /\
  Headers.getAll [] (lit "a b") = Throw (InvalidHeaderName (lit "a b")) /\
  Headers.get [] (lit "a b") = Throw (InvalidHeaderName (lit "a b")) /\
  Headers.new (Headers.init_record [(lit "a b", lit "x")])
  = Throw (InvalidHeaderName (lit "a b")) /\
  Headers.new (Headers.init_sequence [[lit "a b"; lit "x"]])
  = Throw (InvalidHeaderName (lit "a b")).
Proof.
  apply (@illegal_name_is_rejected [] (lit "a b") (lit "x")).
  right. exists 32%N. split; [simpl; tauto|reflexivity].
Defined.

(** X2. With a legal name, a value that holds a unit outside the class of
    header values (a line feed, a unit above 255, ...) is rejected with
    [InvalidHeaderValue] by [append], [set] and the constructor. *)
Theorem illegal_value_is_rejected (h : Headers.t) (name value : jsstring) :
  Headers.validateName name = Normal tt ->
  (exists c, In c value /\ Headers.header_unit c = false) ->
  Headers.append h name value = Throw (InvalidHeaderValue value) /\
  Headers.set h name value = Throw (InvalidHeaderValue value) /\
  Headers.new (Headers.init_record [(name, value)])
  = Throw (InvalidHeaderValue value) /\
  Headers.new (Headers.init_sequence [[name; value]])
  = Throw (InvalidHeaderValue value).
Proof.
  intros Hn H. apply validateValue_illegal in H.
  unfold Headers.append, Headers.set, Headers.new.
  cbn [mapM Headers.check_tuple bind].
  unfold Headers.validate_and_lowercase. cbn [fst snd].
  rewrite Hn, H. repeat split.
Qed.

Lemma illegal_value_is_rejected_witness :
  let value := lit "a" ++ [10%N] ++ lit "b" in
  Headers.append [] (lit "X-Foo") value = Throw (InvalidHeaderValue value) /\
  Headers.set [] (lit "X-Foo") value = Throw (InvalidHeaderValue value) /\
  Headers.new (Headers.init_record [(lit "X-Foo", value)])
  = Throw (InvalidHeaderValue value) /\
  Headers.new (Headers.init_sequence [[lit "X-Foo"; value]])
  = Throw (InvalidHeaderValue value).
Proof.
  apply (@illegal_value_is_rejected [] (lit "X-Foo")
           (lit "a" ++ [10%N] ++ lit "b")).
  - reflexivity.
  - exists 10%N. split; [simpl; tauto|reflexivity].
Defined.

(** ** The invariant of a header list *)

Section Invariant.

Lemma well_formed_pair (name value : jsstring) :
  Headers.validateName name = Normal tt ->
  Headers.validateValue value = Normal tt ->
  Headers.validateName (toLowerCase name) = Normal tt
  /\ toLowerCase (toLowerCase name) = toLowerCase name
  /\ Headers.validateValue value = Normal tt.
Proof.
  intros Hn Hv. repeat split; auto.
  - now apply validateName_toLowerCase.
  - apply toLowerCase_idempotent.
Qed.

Lemma validate_and_lowercase_Normal (p q : jsstring * jsstring) :
  Headers.validate_and_lowercase p = Normal q ->
  Headers.validateName (fst p) = Normal tt
  /\ Headers.validateValue (snd p) = Normal tt
  /\ q = (toLowerCase (fst p), snd p).
Proof.
  unfold Headers.validate_and_lowercase.
  destruct (Headers.validateName (fst p)) as [[]|e]; [|discriminate].
  destruct (Headers.validateValue (snd p)) as [[]|e]; [|discriminate].
  cbn [bind]. now intros [= <-].
Qed.

Lemma new_well_formed (init : Headers.HeadersInit) (h : Headers.t) :
  Headers.new init = Normal h -> well_formed h.
Proof.
  unfold Headers.new.
  destruct (match init with
            | Headers.init_null => Normal []
            | Headers.init_sequence pairs => mapM Headers.check_tuple pairs
            | Headers.init_record entries => Normal entries
            end) as [result|e]; [|discriminate].
  cbn [bind].
  destruct (mapM Headers.validate_and_lowercase result) as [r|e] eqn:M;
    [|discriminate].
  cbn [bind]. intros [= <-]. apply mapM_Normal in M.
  unfold well_formed, URLSearchParams.new.
  induction M as [|p q result r Hpq M IH]; [constructor|].
  cbn [map]. constructor; [|exact IH].
  apply validate_and_lowercase_Normal in Hpq.
  destruct Hpq as [Hn [Hv ->]]. cbn [fst snd].
  rewrite (@toUSVString_lower_name (fst p) Hn),
          (@toUSVString_value (snd p) Hv).
  now apply well_formed_pair.
Qed.

Lemma append_well_formed (h h' : Headers.t) (name value : jsstring) :
  well_formed h -> Headers.append h name value = Normal h' -> well_formed h'.
Proof.
  intros W. unfold Headers.append.
  destruct (Headers.validateName name) as [[]|e] eqn:Hn; [|discriminate].
  destruct (Headers.validateValue value) as [[]|e] eqn:Hv; [|discriminate].
  cbn [bind]. intros [= <-]. unfold URLSearchParams.append.
  rewrite (@toUSVString_lower_name name Hn), (@toUSVString_value value Hv).
  apply Forall_app. split; [exact W|].
  constructor; [|constructor]. now apply well_formed_pair.
Qed.

Lemma set_well_formed (h h' : Headers.t) (name value : jsstring) :
  well_formed h -> Headers.set h name value = Normal h' -> well_formed h'.
Proof.
  intros W. unfold Headers.set.
  destruct (Headers.validateName name) as [[]|e] eqn:Hn; [|discriminate].
  destruct (Headers.validateValue value) as [[]|e] eqn:Hv; [|discriminate].
  cbn [bind]. intros [= <-]. unfold URLSearchParams.set.
  destruct (URLSearchParams.has h (toLowerCase name)).
  - rewrite (@toUSVString_lower_name name Hn), (@toUSVString_value value Hv).
    apply Forall_forall. intros q Hq.
    apply In_set_first in Hq. destruct Hq as [Hq| ->].
    + unfold well_formed in W. rewrite Forall_forall in W. now apply W.
    + now apply well_formed_pair.
  - unfold URLSearchParams.append.
    rewrite (@toUSVString_lower_name name Hn), (@toUSVString_value value Hv).
    apply Forall_app. split; [exact W|].
    constructor; [|constructor]. now apply well_formed_pair.
Qed.

Lemma delete_well_formed (h h' : Headers.t) (name : jsstring) :
  well_formed h -> Headers.delete h name = Normal h' -> well_formed h'.
Proof.
  intros W. unfold Headers.delete.
  destruct (Headers.validateName name) as [[]|e]; [|discriminate].
  cbn [bind]. intros [= <-]. unfold URLSearchParams.delete.
  unfold well_formed in *. rewrite Forall_forall in *.
  intros q Hq. apply filter_In in Hq. now apply W.
Qed.

Lemma sort_well_formed (h : Headers.t) :
  well_formed h -> well_formed (URLSearchParams.sort h).
Proof.
  unfold well_formed. rewrite !Forall_forall.
  intros W q Hq. apply W. now apply sort_In.
Qed.

End Invariant.

(** X3. The invariant of a header list: in a list made by the
    constructor or by [createHeadersLenient], and in any list obtained
    from one by [append], [set], [delete] and [keys], every name is a
    legal name in lower case and every value is a legal value. *)
Theorem header_list_invariant :
  (forall init h, Headers.new init = Normal h -> well_formed h) /\
  (forall object h,
     Headers.createHeadersLenient object = Normal h -> well_formed h) /\
  (forall h name value h',
     well_formed h -> Headers.append h name value = Normal h' ->
     well_formed h') /\
  (forall h name value h',
     well_formed h -> Headers.set h name value = Normal h' ->
     well_formed h') /\
  (forall h name h',
     well_formed h -> Headers.delete h name = Normal h' -> well_formed h') /\
  (forall h, well_formed h -> well_formed (fst (Headers.keys h))).
Proof.
  split; [exact new_well_formed|].
  split; [intros object h; apply new_well_formed|].
  split; [intros h name value h'; apply append_well_formed|].
  split; [intros h name value h'; apply set_well_formed|].
  split; [intros h name h'; apply delete_well_formed|].
  intros h. apply sort_well_formed.
Qed.

(** ** [set], [delete], [has] *)

Lemma has_Normal (h : Headers.t) (name : jsstring) :
  Headers.validateName name = Normal tt ->
  Headers.has h name
  = Normal (List.existsb (fun p => str_eqb (fst p) (toLowerCase name)) h).
Proof.
  intros Hn. unfold Headers.has, URLSearchParams.has.
  rewrite Hn. cbn [bind]. now rewrite (@toUSVString_lower_name name Hn).
Qed.

(** X4. [set] with a legal name and value leaves exactly that value under
    the name, in whatever letter case the name is asked for: [getAll]
    returns it alone and [get] returns it (in lower case for
    [content-encoding]); what is stored under any other name is
    unchanged. *)
Theorem set_then_get (h : Headers.t) (name name' value : jsstring) :
  Headers.validateName name = Normal tt ->
  Headers.validateValue value = Normal tt ->
  toLowerCase name' = toLowerCase name ->
  exists h',
    Headers.set h name value = Normal h' /\
    Headers.getAll h' name' = Normal [value] /\
    Headers.get h' name'
    = Normal (Some (if Headers.content_encoding_regex name'
                    then toLowerCase value else value)) /\
    Headers.has h' name' = Normal true /\
    (forall other,
       toLowerCase other <> toLowerCase name ->
       Headers.getAll h' other = Headers.getAll h other
       /\ Headers.get h' other = Headers.get h other).
Proof.
  intros Hn Hv Hl.
  pose proof (validateName_same_lower name name' Hl Hn) as Hn'.
  exists (URLSearchParams.set h (toLowerCase name) value).
  assert (S : Headers.set h name value
              = Normal (URLSearchParams.set h (toLowerCase name) value)).
  { unfold Headers.set. now rewrite Hn, Hv. }
  assert (F : List.filter (fun p => str_eqb (fst p) (toLowerCase name))
                (URLSearchParams.set h (toLowerCase name) value)
              = [(toLowerCase name, value)]).
  { unfold URLSearchParams.set, URLSearchParams.has, URLSearchParams.append.
    rewrite (@toUSVString_lower_name name Hn), (@toUSVString_value value Hv).
    destruct (List.existsb _ h) eqn:E.
    - now apply filter_set_first_same.
    - apply existsb_filter_nil in E. rewrite filter_app, E.
      cbn [filter fst app]. now rewrite str_eqb_refl. }
  assert (G : Headers.getAll
                (URLSearchParams.set h (toLowerCase name) value) name'
              = Normal [value]).
  { rewrite (@getAll_Normal _ name' Hn'), Hl, F. reflexivity. }
  split; [exact S|]. split; [exact G|].
  split; [now rewrite (get_of_getAll _ _ G)|]. split.
  - rewrite (@has_Normal _ name' Hn'), Hl. f_equal.
    destruct (List.existsb _ _) eqn:E; [reflexivity|].
    apply existsb_filter_nil in E. rewrite F in E. discriminate.
  - intros other Ho.
    assert (GO : Headers.getAll
                   (URLSearchParams.set h (toLowerCase name) value) other
                 = Headers.getAll h other).
    { unfold Headers.getAll.
      destruct (Headers.validateName other) as [[]|e] eqn:Hother;
        [|reflexivity].
      cbn [bind]. f_equal. unfold URLSearchParams.getAll.
      rewrite (@toUSVString_lower_name other Hother). f_equal.
      unfold URLSearchParams.set, URLSearchParams.has,
        URLSearchParams.append.
      rewrite (@toUSVString_lower_name name Hn),
              (@toUSVString_value value Hv).
      destruct (List.existsb _ h).
      - now apply filter_set_first_other.
      - rewrite filter_app. cbn [filter fst].
        replace (str_eqb (toLowerCase name) (toLowerCase other)) with false
          by (symmetry; apply str_eqb_neq; congruence).
        apply app_nil_r. }
    split; [exact GO|]. unfold Headers.get. now rewrite GO.
Qed.

Lemma set_then_get_witness :
  exists h',
    Headers.set [(lit "accept", lit "a"); (lit "accept", lit "b")]
      (lit "Accept") (lit "c") = Normal h' /\
    Headers.getAll h' (lit "ACCEPT") = Normal [lit "c"] /\
    Headers.get h' (lit "ACCEPT") = Normal (Some (lit "c")) /\
    Headers.has h' (lit "ACCEPT") = Normal true /\
    (forall other,
       toLowerCase other <> toLowerCase (lit "Accept") ->
       Headers.getAll h' other
       = Headers.getAll [(lit "accept", lit "a"); (lit "accept", lit "b")]
           other
       /\ Headers.get h' other
          = Headers.get [(lit "accept", lit "a"); (lit "accept", lit "b")]
              other).
Proof.
  exact (@set_then_get [(lit "accept", lit "a"); (lit "accept", lit "b")]
           (lit "Accept") (lit "ACCEPT") (lit "c")
           eq_refl eq_refl eq_refl).
Defined.

(** X5. [delete] with a legal name removes every value of the name, in
    whatever letter case it is asked for afterwards: [has] returns
    false, [getAll] the empty array and [get] [null]; what is stored
    under any other name is unchanged. *)
Theorem delete_then_get (h : Headers.t) (name name' : jsstring) :
  Headers.validateName name = Normal tt ->
  toLowerCase name' = toLowerCase name ->
  exists h',
    Headers.delete h name = Normal h' /\
    Headers.has h' name' = Normal false /\
    Headers.getAll h' name' = Normal [] /\
    Headers.get h' name' = Normal None /\
    (forall other,
       toLowerCase other <> toLowerCase name ->
       Headers.getAll h' other = Headers.getAll h other
       /\ Headers.get h' other = Headers.get h other).
Proof.
  intros Hn Hl.
  pose proof (validateName_same_lower name name' Hl Hn) as Hn'.
  exists (URLSearchParams.delete h (toLowerCase name)).
  assert (F : List.filter (fun p => str_eqb (fst p) (toLowerCase name))
                (URLSearchParams.delete h (toLowerCase name)) = []).
  { unfold URLSearchParams.delete.
    rewrite (@toUSVString_lower_name name Hn). apply filter_delete_same. }
  assert (G : Headers.getAll (URLSearchParams.delete h (toLowerCase name))
                name' = Normal []).
  { rewrite (@getAll_Normal _ name' Hn'), Hl, F. reflexivity. }
  split; [unfold Headers.delete; now rewrite Hn|].
  split.
  { rewrite (@has_Normal _ name' Hn'), Hl. f_equal.
    now apply existsb_filter_nil. }
  split; [exact G|]. split; [now rewrite (get_of_getAll _ _ G)|].
  intros other Ho.
  assert (GO : Headers.getAll (URLSearchParams.delete h (toLowerCase name))
                 other = Headers.getAll h other).
  { unfold Headers.getAll.
    destruct (Headers.validateName other) as [[]|e] eqn:Hother;
      [|reflexivity].
    cbn [bind]. f_equal. unfold URLSearchParams.getAll.
    rewrite (@toUSVString_lower_name other Hother). f_equal.
    unfold URLSearchParams.delete.
    rewrite (@toUSVString_lower_name name Hn).
    apply filter_delete_other. congruence. }
  split; [exact GO|]. unfold Headers.get. now rewrite GO.
Qed.

Lemma delete_then_get_witness :
  exists h',
    Headers.delete [(lit "accept", lit "a"); (lit "host", lit "b")]
      (lit "Accept") = Normal h' /\
    Headers.has h' (lit "ACCEPT") = Normal false /\
    Headers.getAll h' (lit "ACCEPT") = Normal [] /\
    Headers.get h' (lit "ACCEPT") = Normal None /\
    (forall other,
       toLowerCase other <> toLowerCase (lit "Accept") ->
       Headers.getAll h' other
       = Headers.getAll [(lit "accept", lit "a"); (lit "host", lit "b")]
           other
       /\ Headers.get h' other
          = Headers.get [(lit "accept", lit "a"); (lit "host", lit "b")]
              other).
Proof.
  exact (@delete_then_get [(lit "accept", lit "a"); (lit "host", lit "b")]
           (lit "Accept") (lit "ACCEPT") eq_refl eq_refl).
Defined.

(** X6. [has], [getAll] and [get] agree: for a legal name, [has] returns
    true exactly when [getAll] returns a non-empty array, and exactly
    when [get] returns a string and not [null]. *)
Theorem has_agrees_with_get (h : Headers.t) (name : jsstring) :
  Headers.validateName name = Normal tt ->
  exists (b : bool) (values : list jsstring) (result : option jsstring),
    Headers.has h name = Normal b /\
    Headers.getAll h name = Normal values /\
    Headers.get h name = Normal result /\
    (b = true <-> values <> []) /\
    (b = true <-> result <> None).
Proof.
  intros Hn.
  pose proof (@getAll_Normal h name Hn) as G.
  rewrite (@has_Normal h name Hn), (get_of_getAll _ _ G), G.
  do 3 eexists. split; [reflexivity|]. split; [reflexivity|].
  split; [reflexivity|].
  destruct (List.existsb _ h) eqn:E.
  - assert (F : List.filter
                  (fun p => str_eqb (fst p) (toLowerCase name)) h <> []).
    { intros F. apply existsb_filter_nil in F. congruence. }
    destruct (List.filter _ h) as [|p l]; [congruence|]. cbn [map].
    split; split; intros; try reflexivity; discriminate.
  - apply existsb_filter_nil in E. rewrite E. cbn [map].
    split; split; intros; congruence.
Qed.

Lemma has_agrees_with_get_witness :
  exists (b : bool) (values : list jsstring) (result : option jsstring),
    Headers.has [(lit "accept", lit "a")] (lit "Accept") = Normal b /\
    Headers.getAll [(lit "accept", lit "a")] (lit "Accept")
    = Normal values /\
    Headers.get [(lit "accept", lit "a")] (lit "Accept") = Normal result /\
    (b = true <-> values <> []) /\
    (b = true <-> result <> None).
Proof.
  exact (@has_agrees_with_get [(lit "accept", lit "a")] (lit "Accept")
           eq_refl).
Defined.

(** X7. [keys] sorts the list in place, but what [getAll], [get] and
    [has] return for any name is the same before and after: the values
    of a name keep their order. *)
Theorem keys_keeps_values (h : Headers.t) (name : jsstring) :
  Headers.getAll (fst (Headers.keys h)) name = Headers.getAll h name /\
  Headers.get (fst (Headers.keys h)) name = Headers.get h name /\
  Headers.has (fst (Headers.keys h)) name = Headers.has h name.
Proof.
  cbn [Headers.keys fst].
  assert (G : Headers.getAll (URLSearchParams.sort h) name
              = Headers.getAll h name).
  { unfold Headers.getAll. now rewrite sort_getAll. }
  split; [exact G|]. split; [unfold Headers.get; now rewrite G|].
  unfold Headers.has. destruct (Headers.validateName name); [|reflexivity].
  cbn [bind]. f_equal. unfold URLSearchParams.has.
  destruct (List.existsb _ h) eqn:E.
  - apply existsb_exists in E. destruct E as [p [Hp E]].
    apply existsb_exists. exists p. split; [now apply sort_In|exact E].
  - destruct (List.existsb _ (URLSearchParams.sort h)) eqn:E';
      [|reflexivity].
    apply existsb_exists in E'. destruct E' as [p [Hp E']].
    assert (X : List.existsb
                  (fun p => str_eqb (fst p)
                              (toUSVString (toLowerCase name))) h = true).
    { apply existsb_exists. exists p. split; [now apply sort_In|exact E']. }
    congruence.
Qed.

(** ** Iteration: [entries], [values], [forEach], [raw] and the inspection
    hook *)

Section Iteration.

Lemma mapM_ext_Normal {A B : Type} (f : A -> completion B) (g : A -> B)
  (l : list A) :
  (forall x, In x l -> f x = Normal (g x)) ->
  mapM f l = Normal (List.map g l).
Proof.
  induction l as [|x l IH]; intros H; [reflexivity|].
  cbn [mapM map]. rewrite (H x (or_introl eq_refl)). cbn [bind].
  rewrite IH by (intros y Hy; apply H; now right). reflexivity.
Qed.

(** The keys are the names stored. *)
Lemma In_keys (h : Headers.t) (k : jsstring) :
  In k (snd (Headers.keys h)) <-> exists v, In (k, v) h.
Proof.
  cbn [Headers.keys snd]. unfold Set_keys. rewrite Set_from_In.
  cbn [In]. rewrite sort_keys_In. unfold URLSearchParams.keys.
  rewrite in_map_iff. split.
  - intros [[]|[[n v] [<- H]]]. now exists v.
  - intros [v H]. right. now exists (k, v).
Qed.

Lemma NoDup_keys (h : Headers.t) : NoDup (snd (Headers.keys h)).
Proof.
  cbn [Headers.keys snd]. unfold Set_keys. apply Set_from_NoDup. constructor.
Qed.

(** On a list that satisfies the invariant, [getAll] finds values for
    every key, in the list as [keys] leaves it. *)
Lemma getAll_key (h : Headers.t) (k : jsstring) :
  well_formed h ->
  In k (snd (Headers.keys h)) ->
  Headers.getAll (fst (Headers.keys h)) k
  = Normal (URLSearchParams.getAll h k)
  /\ URLSearchParams.getAll h k <> []
  /\ toLowerCase k = k.
Proof.
  intros W Hk. apply In_keys in Hk. destruct Hk as [v Hv].
  unfold well_formed in W. rewrite Forall_forall in W.
  destruct (W _ Hv) as [Hn [Hl _]]. cbn [fst snd] in Hn, Hl.
  assert (U : toUSVString k = k) by now apply toUSVString_name.
  split; [|split; [|exact Hl]].
  - cbn [Headers.keys fst]. unfold Headers.getAll. rewrite Hn. cbn [bind].
    now rewrite sort_getAll, Hl.
  - unfold URLSearchParams.getAll. rewrite U. intros E.
    apply map_eq_nil in E.
    assert (X : In (k, v)
                  (List.filter (fun p => str_eqb (fst p) k) h)).
    { apply filter_In. split; [exact Hv|]. cbn [fst]. apply str_eqb_refl. }
    rewrite E in X. contradiction.
Qed.

Lemma get_key (h : Headers.t) (k : jsstring) :
  well_formed h ->
  In k (snd (Headers.keys h)) ->
  Headers.get (fst (Headers.keys h)) k
  = Normal (Some (if Headers.content_encoding_regex k
                  then toLowerCase
                         (join (lit ", ") (URLSearchParams.getAll h k))
                  else join (lit ", ") (URLSearchParams.getAll h k))).
Proof.
  intros W Hk. destruct (@getAll_key h k W Hk) as [G [Hne _]].
  rewrite (get_of_getAll _ _ G).
  now destruct (URLSearchParams.getAll h k).
Qed.

(** The keys that become properties of a record. *)
Lemma Record_set_fresh {A : Type} (res : list (jsstring * A))
  (key : jsstring) (v : A) :
  ~ In key (List.map fst res) ->
  Headers.Record_set res key v
  = res ++ (if str_eqb key (lit "__proto__") then [] else [(key, v)]).
Proof.
  unfold Headers.Record_set.
  destruct (str_eqb key (lit "__proto__")); [now rewrite app_nil_r|].
  induction res as [|p res IH]; intros H; [reflexivity|].
  cbn [Headers.Record_define]. destruct (str_eqb (fst p) key) eqn:E.
  - apply str_eqb_eq in E. exfalso. apply H. now left.
  - cbn [app]. f_equal. apply IH. intros X. apply H. now right.
Qed.

(** A record filled key by key, for keys that are all different. *)
Lemma fold_Record_set {A : Type} (h : Headers.t)
  (g : jsstring -> list jsstring -> A) (G : jsstring -> list jsstring)
  (names : list jsstring) (acc : list (jsstring * A)) :
  NoDup names ->
  (forall k, In k names -> ~ In k (List.map fst acc)) ->
  (forall k, In k names -> Headers.getAll h k = Normal (G k)) ->
  List.fold_left
    (fun res key =>
       res <- res ;; vs <- Headers.getAll h key ;;
       Normal (Headers.Record_set res key (g key vs)))
    names (Normal acc)
  = Normal
      (acc ++ List.map (fun k => (k, g k (G k)))
                (List.filter
                   (fun k => negb (str_eqb k (lit "__proto__"))) names)).
Proof.
  revert acc. induction names as [|k names IH]; intros acc Hnd Hacc HG.
  - cbn. now rewrite app_nil_r.
  - cbn [fold_left bind filter]. rewrite (HG k (or_introl eq_refl)).
    cbn [bind]. rewrite Record_set_fresh by (apply Hacc; now left).
    inversion Hnd as [|? ? Hk Hnd']; subst.
    rewrite IH; auto.
    + destruct (str_eqb k (lit "__proto__")); cbn [negb map].
      * now rewrite app_nil_r.
      * now rewrite <- app_assoc.
    + intros k' Hk'. rewrite map_app, in_app_iff.
      intros [X|X].
      * apply (Hacc k'); [now right|exact X].
      * destruct (str_eqb k (lit "__proto__")); [contradiction|].
        destruct X as [X|[]]. cbn [fst] in X. congruence.
    + intros k' Hk'. apply HG. now right.
Qed.

Lemma Record_get_map {A : Type} (f : jsstring -> A) (names : list jsstring)
  (k : jsstring) :
  Headers.Record_get (List.map (fun k => (k, f k)) names) k
  = if List.existsb (str_eqb k) names then Some (f k) else None.
Proof.
  induction names as [|n names IH]; [reflexivity|].
  cbn [map Headers.Record_get existsb fst snd].
  destruct (str_eqb n k) eqn:E.
  - apply str_eqb_eq in E. subst n. now rewrite str_eqb_refl.
  - replace (str_eqb k n) with false; [exact IH|].
    symmetry. apply str_eqb_neq. apply str_eqb_neq in E. congruence.
Qed.

Lemma existsb_filter_proto (names : list jsstring) (k : jsstring) :
  List.existsb (str_eqb k)
    (List.filter (fun k => negb (str_eqb k (lit "__proto__"))) names)
  = List.existsb (str_eqb k) names && negb (str_eqb k (lit "__proto__")).
Proof.
  induction names as [|n names IH]; [reflexivity|].
  cbn [filter existsb]. destruct (str_eqb k n) eqn:E.
  - apply str_eqb_eq in E. subst n. cbn [orb].
    destruct (str_eqb k (lit "__proto__")); cbn [negb existsb].
    + rewrite IH. now rewrite andb_false_r.
    + now rewrite str_eqb_refl.
  - cbn [orb]. destruct (str_eqb n (lit "__proto__")); cbn [negb existsb];
      [exact IH|]. now rewrite E.
Qed.

End Iteration.

(** X8. On a list that satisfies the invariant, [entries] and [values]
    do not throw: [entries] yields, for the keys in the order of [keys],
    each key with the join of its values by a comma and a space (in
    lower case for [content-encoding]), never [null]; [values] yields the
    second components. *)
Theorem entries_of_keys (h : Headers.t) :
  well_formed h ->
  let value_of k :=
    let joined := join (lit ", ") (URLSearchParams.getAll h k) in
    if str_eqb k (lit "content-encoding") then toLowerCase joined
    else joined in
  Headers.entries h
  = (fst (Headers.keys h),
     Normal (List.map (fun k => (k, Some (value_of k)))
               (snd (Headers.keys h)))) /\
  Headers.values h
  = (fst (Headers.keys h),
     Normal (List.map (fun k => Some (value_of k)) (snd (Headers.keys h)))).
Proof.
  intros W value_of.
  assert (V : forall k, In k (snd (Headers.keys h)) ->
                Headers.get (fst (Headers.keys h)) k
                = Normal (Some (value_of k))).
  { intros k Hk. rewrite (@get_key h k W Hk). do 2 f_equal. unfold value_of.
    destruct (@getAll_key h k W Hk) as [_ [_ Hl]].
    destruct (Headers.content_encoding_regex k) eqn:R.
    - apply content_encoding_regex_iff in R. rewrite Hl in R.
      rewrite R. reflexivity.
    - destruct (str_eqb k (lit "content-encoding")) eqn:E; [|reflexivity].
      apply str_eqb_eq in E. rewrite E in R. discriminate. }
  unfold Headers.entries, Headers.values.
  change (Headers.keys h)
    with (fst (Headers.keys h), snd (Headers.keys h)).
  split; f_equal.
  - apply mapM_ext_Normal. intros k Hk. now rewrite (V k Hk).
  - apply mapM_ext_Normal. exact V.
Qed.

Lemma entries_of_keys_witness :
  Headers.entries
    [(lit "b", lit "1"); (lit "a", lit "2"); (lit "b", lit "3")]
  = ([(lit "a", lit "2"); (lit "b", lit "1"); (lit "b", lit "3")],
     Normal [(lit "a", Some (lit "2")); (lit "b", Some (lit "1, 3"))]) /\
  Headers.values
    [(lit "b", lit "1"); (lit "a", lit "2"); (lit "b", lit "3")]
  = ([(lit "a", lit "2"); (lit "b", lit "1"); (lit "b", lit "3")],
     Normal [Some (lit "2"); Some (lit "1, 3")]).
Proof.
  apply (@entries_of_keys
           [(lit "b", lit "1"); (lit "a", lit "2"); (lit "b", lit "3")]).
  repeat constructor.
Defined.

(** X9. On a list that satisfies the invariant, [raw] does not throw and
    returns a record whose properties are the keys of [keys], except
    [__proto__], which an assignment cannot create: each has for value
    the array of all the values of that key, in the order they were
    stored, and that array is not empty. *)
Theorem raw_of_keys (h : Headers.t) :
  well_formed h ->
  exists record,
    Headers.raw h = (fst (Headers.keys h), Normal record) /\
    (forall k,
       Headers.Record_get record k
       = if List.existsb (str_eqb k) (snd (Headers.keys h))
            && negb (str_eqb k (lit "__proto__"))
         then Some (URLSearchParams.getAll h k)
         else None) /\
    (forall k,
       In k (snd (Headers.keys h)) -> URLSearchParams.getAll h k <> []).
Proof.
  intros W.
  exists (List.map (fun k => (k, URLSearchParams.getAll h k))
            (List.filter (fun k => negb (str_eqb k (lit "__proto__")))
               (snd (Headers.keys h)))).
  split; [|split].
  - unfold Headers.raw, Headers.keys. cbn [fst snd]. f_equal.
    change (URLSearchParams.sort h) with (fst (Headers.keys h)).
    change (Set_keys (URLSearchParams.keys (fst (Headers.keys h))))
      with (snd (Headers.keys h)).
    apply (@fold_Record_set _ (fst (Headers.keys h)) (fun _ vs => vs)
             (URLSearchParams.getAll h) (snd (Headers.keys h)) []).
    + apply NoDup_keys.
    + intros k _ [].
    + intros k Hk. now destruct (@getAll_key h k W Hk).
  - intros k. now rewrite Record_get_map, existsb_filter_proto.
  - intros k Hk. now destruct (@getAll_key h k W Hk) as [_ [? _]].
Qed.

Lemma raw_of_keys_witness :
  let h := [(lit "b", lit "1"); (lit "__proto__", lit "2");
            (lit "b", lit "3")] in
  exists record,
    Headers.raw h = (fst (Headers.keys h), Normal record) /\
    (forall k,
       Headers.Record_get record k
       = if List.existsb (str_eqb k) (snd (Headers.keys h))
            && negb (str_eqb k (lit "__proto__"))
         then Some (URLSearchParams.getAll h k)
         else None) /\
    (forall k,
       In k (snd (Headers.keys h)) -> URLSearchParams.getAll h k <> []).
Proof.
  apply (@raw_of_keys
           [(lit "b", lit "1"); (lit "__proto__", lit "2");
            (lit "b", lit "3")]).
  repeat constructor.
Defined.

(** X10. On a list that satisfies the invariant, the inspection hook
    does not throw and returns a record whose properties are the keys of
    [keys], except [__proto__]; none is [undefined]: [host] has the first
    value alone, however many there are; any other key has the value
    itself when there is one, and the array of all values when there are
    several. *)
Theorem inspect_custom_of_keys (h : Headers.t) :
  well_formed h ->
  exists record,
    Headers.inspect_custom h = (fst (Headers.keys h), Normal record) /\
    (forall k,
       Headers.Record_get record k <> None
       <-> In k (snd (Headers.keys h)) /\ k <> lit "__proto__") /\
    (forall k x,
       Headers.Record_get record k = Some x ->
       exists v rest,
         URLSearchParams.getAll h k = v :: rest /\
         x = if str_eqb k (lit "host") then Headers.insp_string v
             else match rest with
                  | [] => Headers.insp_string v
                  | _ :: _ => Headers.insp_array (v :: rest)
                  end).
Proof.
  intros W.
  pose (g := fun (key : jsstring) (values : list jsstring) =>
               if str_eqb key (lit "host") then Headers.first_of values
               else if Nat.ltb 1 (List.length values)
                    then Headers.insp_array values
                    else Headers.first_of values).
  exists (List.map (fun k => (k, g k (URLSearchParams.getAll h k)))
            (List.filter (fun k => negb (str_eqb k (lit "__proto__")))
               (snd (Headers.keys h)))).
  assert (S : forall k,
            List.existsb (str_eqb k) (snd (Headers.keys h)) = true
            <-> In k (snd (Headers.keys h))).
  { intros k. rewrite existsb_exists. split.
    - intros [n [Hn E]]. apply str_eqb_eq in E. now subst n.
    - intros Hk. exists k. split; [exact Hk|apply str_eqb_refl]. }
  split; [|split].
  - unfold Headers.inspect_custom, Headers.keys. cbn [fst snd]. f_equal.
    change (URLSearchParams.sort h) with (fst (Headers.keys h)).
    change (Set_keys (URLSearchParams.keys (fst (Headers.keys h))))
      with (snd (Headers.keys h)).
    apply (@fold_Record_set _ (fst (Headers.keys h)) g
             (URLSearchParams.getAll h) (snd (Headers.keys h)) []).
    + apply NoDup_keys.
    + intros k _ [].
    + intros k Hk. now destruct (@getAll_key h k W Hk).
  - intros k.
    rewrite (Record_get_map (fun k => g k (URLSearchParams.getAll h k))),
      existsb_filter_proto.
    rewrite <- S, <- str_eqb_neq.
    destruct (List.existsb _ _); destruct (str_eqb k (lit "__proto__"));
      cbn [andb negb];
      (split; intros H;
       [try (now split); congruence
       |destruct H; try discriminate; congruence]).
  - intros k x.
    rewrite (Record_get_map (fun k => g k (URLSearchParams.getAll h k))),
      existsb_filter_proto.
    destruct (List.existsb _ _) eqn:E; [|discriminate].
    destruct (negb _); [|discriminate]. cbn [andb]. intros [= <-].
    apply S in E.
    destruct (@getAll_key h k W E) as [_ [Hne _]].
    destruct (URLSearchParams.getAll h k) as [|v rest]; [congruence|].
    exists v, rest. split; [reflexivity|]. unfold g.
    destruct (str_eqb k (lit "host")); [reflexivity|].
    now destruct rest.
Qed.

Lemma inspect_custom_of_keys_witness :
  let h := [(lit "host", lit "a"); (lit "host", lit "b");
            (lit "x", lit "1"); (lit "x", lit "2")] in
  exists record,
    Headers.inspect_custom h = (fst (Headers.keys h), Normal record) /\
    (forall k,
       Headers.Record_get record k <> None
       <-> In k (snd (Headers.keys h)) /\ k <> lit "__proto__") /\
    (forall k x,
       Headers.Record_get record k = Some x ->
       exists v rest,
         URLSearchParams.getAll h k = v :: rest /\
         x = if str_eqb k (lit "host") then Headers.insp_string v
             else match rest with
                  | [] => Headers.insp_string v
                  | _ :: _ => Headers.insp_array (v :: rest)
                  end).
Proof.
  apply (@inspect_custom_of_keys
           [(lit "host", lit "a"); (lit "host", lit "b");
            (lit "x", lit "1"); (lit "x", lit "2")]).
  repeat constructor.
Defined.

(** X11. On a list that satisfies the invariant, [forEach] runs the
    callback on what [entries] yields, in that order, value first and
    name second, and stops at the first exception of the callback. *)
Theorem forEach_visits_entries (S : Type) (h : Headers.t)
  (callback : S -> option jsstring -> jsstring -> completion S) (s : S) :
  well_formed h ->
  exists yielded,
    Headers.entries h = (fst (Headers.keys h), Normal yielded) /\
    Headers.forEach h callback s
    = (fst (Headers.keys h),
       List.fold_left
         (fun acc entry => s <- acc ;; callback s (snd entry) (fst entry))
         yielded (Normal s)).
Proof.
  intros W.
  pose (value_of := fun k =>
          if Headers.content_encoding_regex k
          then toLowerCase (join (lit ", ") (URLSearchParams.getAll h k))
          else join (lit ", ") (URLSearchParams.getAll h k)).
  assert (V : forall k, In k (snd (Headers.keys h)) ->
                Headers.get (fst (Headers.keys h)) k
                = Normal (Some (value_of k))).
  { intros k Hk. now rewrite (@get_key h k W Hk). }
  exists (List.map (fun k => (k, Some (value_of k))) (snd (Headers.keys h))).
  split.
  - unfold Headers.entries, Headers.keys. cbn [fst snd]. f_equal.
    change (URLSearchParams.sort h) with (fst (Headers.keys h)).
    change (Set_keys (URLSearchParams.keys (fst (Headers.keys h))))
      with (snd (Headers.keys h)).
    apply mapM_ext_Normal. intros k Hk. now rewrite (V k Hk).
  - unfold Headers.forEach, Headers.keys. cbn [fst snd]. f_equal.
    change (URLSearchParams.sort h) with (fst (Headers.keys h)).
    change (Set_keys (URLSearchParams.keys (fst (Headers.keys h))))
      with (snd (Headers.keys h)).
    generalize (Normal s) as acc.
    induction (snd (Headers.keys h)) as [|k names IH]; intros acc;
      [reflexivity|].
    cbn [fold_left map fst snd].
    rewrite IH by (intros k' Hk'; apply V; now right).
    f_equal. destruct acc as [s0|e]; [|reflexivity]. cbn [bind].
    now rewrite (V k (or_introl eq_refl)).
Qed.

Lemma forEach_visits_entries_witness :
  let callback (seen : list jsstring) (_ : option jsstring)
        (name : jsstring) := Normal (seen ++ [name]) in
  exists yielded,
    Headers.entries [(lit "b", lit "1"); (lit "a", lit "2")]
    = (fst (Headers.keys [(lit "b", lit "1"); (lit "a", lit "2")]),
       Normal yielded) /\
    Headers.forEach [(lit "b", lit "1"); (lit "a", lit "2")] callback []
    = (fst (Headers.keys [(lit "b", lit "1"); (lit "a", lit "2")]),
       List.fold_left
         (fun acc entry => s <- acc ;; callback s (snd entry) (fst entry))
         yielded (Normal [])).
Proof.
  apply (@forEach_visits_entries (list jsstring)
           [(lit "b", lit "1"); (lit "a", lit "2")]
           (fun seen _ name => Normal (seen ++ [name])) []).
  repeat constructor.
Defined.

(** ** The constructor *)

(** X12. The pairs of a sequence are all checked for their length before
    any name is validated: when a pair does not have two elements, the
    constructor throws the tuple error, also when an earlier pair has an
    illegal name or value. *)
Theorem tuple_error_comes_first (pairs : list (list jsstring))
  (pair : list jsstring) :
  In pair pairs ->
  List.length pair <> 2 ->
  Headers.new (Headers.init_sequence pairs)
  = Throw (TypeError pair_must_be_a_tuple).
Proof.
  intros Hin Hlen. unfold Headers.new.
  assert (M : mapM Headers.check_tuple pairs
              = Throw (TypeError pair_must_be_a_tuple)).
  { induction pairs as [|p pairs IH]; [contradiction|].
    cbn [mapM]. destruct Hin as [->|Hin].
    - destruct pair as [|a [|b [|c pair]]]; try reflexivity.
      now contradiction Hlen.
    - rewrite (IH Hin).
      destruct (Headers.check_tuple p) as [q|e] eqn:C; [reflexivity|].
      cbn [bind]. destruct p as [|a [|b [|c p]]]; cbn in C; congruence. }
  now rewrite M.
Qed.

Lemma tuple_error_comes_first_witness :
  Headers.new
    (Headers.init_sequence [[lit "a b"; lit "x"]; [lit "only-a-name"]])
  = Throw (TypeError pair_must_be_a_tuple).
Proof.
  apply (@tuple_error_comes_first
           [[lit "a b"; lit "x"]; [lit "only-a-name"]] [lit "only-a-name"]).
  - simpl. tauto.
  - simpl. discriminate.
Defined.

(** X13. The constructor is [append] repeated: on a record, and on the
    sequence of the same pairs, it returns what appending the pairs one
    after the other to an empty list returns, and it throws what the
    first failing [append] throws. *)
Theorem new_is_repeated_append (entries : list (jsstring * jsstring)) :
  Headers.new (Headers.init_record entries)
  = List.fold_left
      (fun acc p => h <- acc ;; Headers.append h (fst p) (snd p))
      entries (Normal []) /\
  Headers.new
    (Headers.init_sequence (List.map (fun p => [fst p; snd p]) entries))
  = Headers.new (Headers.init_record entries).
Proof.
  split.
  - unfold Headers.new. cbn [bind].
    assert (F : forall acc,
              List.fold_left
                (fun acc p => h <- acc ;; Headers.append h (fst p) (snd p))
                entries (Normal acc)
              = result <- mapM Headers.validate_and_lowercase entries ;;
                Normal (acc ++ URLSearchParams.new result)).
    { induction entries as [|p entries IH]; intros acc.
      - cbn. now rewrite app_nil_r.
      - cbn [fold_left mapM bind].
        unfold Headers.append, Headers.validate_and_lowercase at 1.
        destruct (Headers.validateName (fst p)) as [[]|e]; cbn [bind].
        + destruct (Headers.validateValue (snd p)) as [[]|e]; cbn [bind].
          * rewrite IH.
            destruct (mapM Headers.validate_and_lowercase entries);
              [|reflexivity].
            cbn [bind]. unfold URLSearchParams.append, URLSearchParams.new.
            cbn [map fst snd]. now rewrite <- app_assoc.
          * clear IH. induction entries; [reflexivity|assumption].
        + clear IH. induction entries; [reflexivity|assumption]. }
    symmetry. exact (F []).
  - unfold Headers.new. now rewrite mapM_check_tuple.
Qed.

(** ** [createHeadersLenient], continued *)

(** X14. [createHeadersLenient] does not throw when no property of the
    record has the empty name: it returns the pairs it keeps, names in
    lower case, in the order of the record; an entry whose name holds a
    unit outside the token class, or whose value (an array joined by
    commas) holds a unit outside the class of header values, contributes
    nothing. *)
Theorem createHeadersLenient_without_empty_name
  (object : list (jsstring * Headers.field)) :
  (forall entry, In entry object -> fst entry <> []) ->
  Headers.createHeadersLenient object
  = Normal (List.map (fun p => (toLowerCase (fst p), snd p))
              (List.flat_map lenient_pairs object)) /\
  (forall entry,
     In entry object ->
     Headers.invalidTokenRegex (fst entry) = true
     \/ Headers.invalidHeaderCharRegex
          (Headers.String_of_field (snd entry)) = true ->
     lenient_pairs entry = []).
Proof.
  intros Hne. split.
  - rewrite createHeadersLenient_by_pairs.
    destruct (List.existsb _ _) eqn:E; [|reflexivity].
    apply existsb_exists in E. destruct E as [p [Hp E]].
    apply str_eqb_eq in E. apply in_flat_map in Hp.
    destruct Hp as [entry [Hentry Hp]].
    destruct (@lenient_pairs_legal entry p Hp) as [Hfst _].
    exfalso. apply (Hne entry Hentry). congruence.
  - intros entry _ H. unfold lenient_pairs.
    destruct H as [-> | ->]; [reflexivity|].
    now rewrite andb_false_r.
Qed.

(** The name with a space of the specification: the strict constructor
    throws for it, the lenient one leaves the pair out. *)
Lemma createHeadersLenient_without_empty_name_witness :
  Headers.createHeadersLenient
    [(lit "a b", Headers.one (lit "x"));
     (lit "Accept", Headers.many [lit "1"; lit "2"])]
  = Normal [(lit "accept", lit "1"); (lit "accept", lit "2")] /\
  (forall entry,
     In entry [(lit "a b", Headers.one (lit "x"));
               (lit "Accept", Headers.many [lit "1"; lit "2"])] ->
     Headers.invalidTokenRegex (fst entry) = true
     \/ Headers.invalidHeaderCharRegex
          (Headers.String_of_field (snd entry)) = true ->
     lenient_pairs entry = []).
Proof.
  apply (@createHeadersLenient_without_empty_name
           [(lit "a b", Headers.one (lit "x"));
            (lit "Accept", Headers.many [lit "1"; lit "2"])]).
  intros entry [<-|[<-|[]]]; discriminate.
Defined.

(** X15. An array of values is tested as a whole: when one of its
    elements holds a unit outside the class of header values, none of
    the values of that name is kept, the legal ones included. *)
Theorem one_illegal_element_discards_the_array (name v : jsstring)
  (vs : list jsstring) :
  In v vs ->
  Headers.invalidHeaderCharRegex v = true ->
  lenient_pairs (name, Headers.many vs) = [] /\
  Headers.createHeadersLenient [(name, Headers.many vs)] = Normal [].
Proof.
  intros Hin Hv.
  assert (J : Headers.invalidHeaderCharRegex (join (lit ",") vs) = true).
  { destruct (Headers.invalidHeaderCharRegex (join (lit ",") vs)) eqn:E;
      [reflexivity|].
    rewrite (@invalidHeaderCharRegex_join v vs Hin E) in Hv. discriminate. }
  assert (L : lenient_pairs (name, Headers.many vs) = []).
  { unfold lenient_pairs. cbn [fst snd Headers.String_of_field].
    rewrite J. now rewrite andb_false_r. }
  split; [exact L|].
  rewrite createHeadersLenient_by_pairs. cbn [flat_map].
  now rewrite L.
Qed.

Lemma one_illegal_element_discards_the_array_witness :
  lenient_pairs
    (lit "accept", Headers.many [lit "ok"; lit "a" ++ [10%N]; lit "fine"])
  = [] /\
  Headers.createHeadersLenient
    [(lit "accept", Headers.many [lit "ok"; lit "a" ++ [10%N]; lit "fine"])]
  = Normal [].
Proof.
  apply (@one_illegal_element_discards_the_array (lit "accept")
           (lit "a" ++ [10%N]) [lit "ok"; lit "a" ++ [10%N]; lit "fine"]).
  - simpl. tauto.
  - reflexivity.
Defined.

(** ** Reading a stream *)

Section Reading.

Import Body.

Variable kMaxLength : N.

(** [consumeBody] on a stream or a blob that was not used and has no
    error recorded: the listeners are attached and the events of the
    stream are run. *)
Lemma consumeBody_of_source (b : t) (s : Stream) (expiry : option nat) :
  bodyUsed b = false ->
  error (INTERNALS b) = None ->
  source_of (get_body b) = Some s ->
  consumeBody kMaxLength b expiry
  = (used b,
     settled (run kMaxLength (used b) (armed b expiry) (events s)
                (listening b))).
Proof.
  unfold bodyUsed, get_body, consumeBody. intros Hu He Hs.
  rewrite Hu.
  cbn [error with_internals INTERNALS get_body body timeout].
  rewrite He.
  destruct (body (INTERNALS b)) as [| |x|x|bl|x|x|x o l|st|x m] eqn:B;
    try discriminate; injection Hs as <-; cbn [is_null];
    unfold used; rewrite B, He; reflexivity.
Qed.

Variable data : t.

(** The chunks read so far, while no chunk went over the limit. *)
Lemma fold_on_data (chunks : list (option bytes)) (d : drain) :
  abort d = false ->
  size data = 0%N
  \/ (accumBytes d + N.of_nat (List.length (payload chunks)) <= size data)%N ->
  let d' := List.fold_left (on_data data) chunks d in
  List.concat (accum d') = List.concat (accum d) ++ payload chunks /\
  accumBytes d'
  = (accumBytes d + N.of_nat (List.length (payload chunks)))%N /\
  abort d' = false /\
  settled d' = settled d /\
  destroyed d' = destroyed d.
Proof.
  revert d. induction chunks as [|c chunks IH]; intros d Ha Hs; cbn zeta.
  - cbn. rewrite app_nil_r, N.add_0_r. now repeat split.
  - cbn [fold_left]. destruct c as [c|].
    + assert (P : payload (Some c :: chunks) = c ++ payload chunks)
        by reflexivity.
      rewrite P in *. rewrite List.length_app in *.
      assert (O : on_data data d (Some c) = push d c).
      { unfold on_data. rewrite Ha.
        destruct (N.eqb_spec (size data) 0) as [E|E]; [reflexivity|].
        cbn [negb andb].
        destruct (N.ltb_spec (size data)
                    (accumBytes d + N.of_nat (List.length c)));
          [|reflexivity].
        destruct Hs; [contradiction|lia]. }
      rewrite O.
      destruct (IH (push d c)) as [H1 [H2 [H3 [H4 H5]]]].
      * exact Ha.
      * cbn [push accumBytes]. destruct Hs; [now left|right; lia].
      * rewrite H1, H2, H3, H4, H5. cbn [push accum accumBytes settled
                                           destroyed].
        rewrite concat_app, <- app_assoc.
        replace (List.concat [c]) with c
          by (cbn; now rewrite app_nil_r).
        repeat split. lia.
    + cbn [on_data]. now apply IH.
Qed.

(** The events of a stream that begins with chunks, while the timer does
    not expire. *)
Lemma run_chunks (chunks : list (option bytes)) (rest : list stream_event)
  (timer : option nat) (d : drain) :
  match timer with Some m => List.length chunks <= m | None => True end ->
  run kMaxLength data timer (List.map ev_data chunks ++ rest) d
  = run kMaxLength data
      (option_map (fun m => m - List.length chunks) timer) rest
      (List.fold_left (on_data data) chunks d).
Proof.
  revert timer d. induction chunks as [|c chunks IH]; intros timer d Ht.
  - cbn [map app fold_left List.length].
    destruct timer as [m|]; [|reflexivity].
    cbn [option_map]. replace (m - 0) with m by lia. reflexivity.
  - destruct timer as [[|m]|]; [cbn in Ht; lia| |].
    + cbn [map app run option_map Nat.pred fold_left].
      rewrite IH by (cbn in Ht; cbn; lia). reflexivity.
    + cbn [map app run option_map fold_left].
      now rewrite IH.
Qed.

Lemma Buffer_concat_exact (l : list bytes) :
  (N.of_nat (List.length (List.concat l)) <= kMaxLength)%N ->
  Buffer_concat kMaxLength l (N.of_nat (List.length (List.concat l)))
  = Normal (List.concat l).
Proof.
  intros H. unfold Buffer_concat.
  destruct (N.ltb_spec kMaxLength (N.of_nat (List.length (List.concat l))));
    [lia|].
  rewrite Nat2N.id. f_equal.
  rewrite firstn_app, firstn_all.
  replace (List.length (List.concat l) - List.length (List.concat l))
    with 0 by lia.
  cbn [firstn]. apply app_nil_r.
Qed.

End Reading.

Section Outcomes.

Import Body.

Variable kMaxLength : N.

Lemma read_chunks (b : t) (chunks : list (option bytes)) :
  size b = 0%N \/ (N.of_nat (List.length (payload chunks)) <= size b)%N ->
  let d := List.fold_left (on_data (used b)) chunks (listening b) in
  List.concat (accum d) = payload chunks /\
  accumBytes d = N.of_nat (List.length (payload chunks)) /\
  abort d = false /\
  settled d = pending /\
  destroyed d = None.
Proof.
  intros Hs.
  destruct (@fold_on_data (used b) chunks (listening b) eq_refl)
    as [H1 [H2 [H3 [H4 H5]]]].
  { exact Hs. }
  cbn zeta. rewrite H1, H2, H3, H4, H5. now repeat split.
Qed.

Lemma timer_after (chunks : list (option bytes)) (timer : option nat) :
  match timer with Some m => List.length chunks < m | None => True end ->
  option_map (fun m => m - List.length chunks) timer = None
  \/ exists m, option_map (fun m => m - List.length chunks) timer
               = Some (S m).
Proof.
  destruct timer as [m|]; [|now left].
  intros H. right. exists (m - List.length chunks - 1). cbn. f_equal. lia.
Qed.

Lemma timer_le (chunks : list (option bytes)) (timer : option nat) :
  match timer with Some m => List.length chunks < m | None => True end ->
  match timer with Some m => List.length chunks <= m | None => True end.
Proof. destruct timer; [lia|auto]. Qed.

(** A stream that ends after its chunks, none of which goes over the
    limit: the event [end] is reached with the chunks accumulated. *)
Lemma run_to_the_end (b : t) (chunks : list (option bytes))
  (last : stream_event) (rest : list stream_event) (timer : option nat) :
  match timer with Some m => List.length chunks < m | None => True end ->
  last <> ev_data None -> (forall c, last <> ev_data (Some c)) ->
  run kMaxLength (used b) timer (List.map ev_data chunks ++ last :: rest)
    (listening b)
  = on_finished kMaxLength
      (List.fold_left (on_data (used b)) chunks (listening b))
      match last with ev_error err => Some err | _ => None end.
Proof.
  intros Ht H1 H2. rewrite run_chunks by now apply timer_le.
  destruct (timer_after chunks timer Ht) as [->|[m ->]];
    destruct last as [[c|]| |err]; try reflexivity; try congruence;
    now contradiction (H2 c).
Qed.

End Outcomes.

(** X16. A stream (or the stream of a blob) that emits chunks and then
    ends, read by [consumeBody] on an instance that was not used: when
    no limit is set or the chunks stay within it, the timer does not
    expire before the end, and the total fits a buffer, the promise is
    fulfilled with the bytes of the chunks in the order they came, [null]
    chunks left out. *)
Theorem stream_drains_to_its_payload (kMaxLength : N) (b : Body.t)
  (s : Body.Stream) (chunks : list (option Body.bytes))
  (rest : list Body.stream_event) (expiry : option nat) :
  Body.bodyUsed b = false ->
  Body.error (Body.INTERNALS b) = None ->
  source_of (Body.get_body b) = Some s ->
  Body.events s = List.map Body.ev_data chunks ++ Body.ev_end :: rest ->
  Body.size b = 0%N
  \/ (N.of_nat (List.length (Body.payload chunks)) <= Body.size b)%N ->
  (N.of_nat (List.length (Body.payload chunks)) <= kMaxLength)%N ->
  match armed b expiry with
  | Some m => List.length chunks < m
  | None => True
  end ->
  Body.consumeBody kMaxLength b expiry
  = (used b, Body.fulfilled (Body.payload chunks)).
Proof.
  intros Hu He Hs Hev Hsize Hmax Ht.
  rewrite (@consumeBody_of_source kMaxLength b s expiry Hu He Hs), Hev.
  f_equal.
  rewrite run_to_the_end by (auto; discriminate).
  destruct (@read_chunks b chunks Hsize) as [H1 [H2 [H3 [H4 H5]]]].
  unfold Body.on_finished.
  cbn [Body.clearTimeout Body.abort Body.accum Body.accumBytes].
  rewrite H3, H2, <- H1, Buffer_concat_exact by now rewrite H1.
  unfold Body.resolve, Body.clearTimeout. cbn [Body.settled].
  now rewrite H4.
Qed.

(** Two chunks and a [null] chunk in between, with a limit of four bytes
    and a timer that would expire after five events. *)
Lemma stream_drains_to_its_payload_witness :
  let s := Body.Readable
             [Body.ev_data (Some [x68; x65]); Body.ev_data None;
              Body.ev_data (Some [x6c; x6c]); Body.ev_end]
             Body.no_methods in
  let b := Body.new (Body.a_Stream s) 4 1000 in
  Body.consumeBody 4294967296 b (Some 5)
  = (used b, Body.fulfilled [x68; x65; x6c; x6c]).
Proof.
  cbv zeta.
  apply (@stream_drains_to_its_payload 4294967296
           (Body.new
              (Body.a_Stream
                 (Body.Readable
                    [Body.ev_data (Some [x68; x65]); Body.ev_data None;
                     Body.ev_data (Some [x6c; x6c]); Body.ev_end]
                    Body.no_methods)) 4 1000)
           (Body.Readable
              [Body.ev_data (Some [x68; x65]); Body.ev_data None;
               Body.ev_data (Some [x6c; x6c]); Body.ev_end]
              Body.no_methods)
           [Some [x68; x65]; None; Some [x6c; x6c]] [] (Some 5)).
  - reflexivity.
  - reflexivity.
  - reflexivity.
  - reflexivity.
  - right. vm_compute. discriminate.
  - vm_compute. discriminate.
  - simpl. lia.
Defined.

(** X17. The same stream when its chunks carry more bytes than a buffer
    can hold: [Buffer.concat] throws, and the promise is rejected with a
    [FetchError] of type [system] that has that exception as its
    cause. *)
Theorem stream_too_long_for_a_buffer (kMaxLength : N) (b : Body.t)
  (s : Body.Stream) (chunks : list (option Body.bytes))
  (rest : list Body.stream_event) (expiry : option nat) :
  Body.bodyUsed b = false ->
  Body.error (Body.INTERNALS b) = None ->
  source_of (Body.get_body b) = Some s ->
  Body.events s = List.map Body.ev_data chunks ++ Body.ev_end :: rest ->
  Body.size b = 0%N
  \/ (N.of_nat (List.length (Body.payload chunks)) <= Body.size b)%N ->
  (kMaxLength < N.of_nat (List.length (Body.payload chunks)))%N ->
  match armed b expiry with
  | Some m => List.length chunks < m
  | None => True
  end ->
  exists cause,
    Body.consumeBody kMaxLength b expiry
    = (used b, Body.rejected (BodySystemError cause))
    /\ exists m, cause = RangeError m.
Proof.
  intros Hu He Hs Hev Hsize Hmax Ht.
  exists (RangeError (other_message "Invalid typed array length")).
  split; [|eauto].
  rewrite (@consumeBody_of_source kMaxLength b s expiry Hu He Hs), Hev.
  f_equal.
  rewrite run_to_the_end by (auto; discriminate).
  destruct (@read_chunks b chunks Hsize) as [H1 [H2 [H3 [H4 H5]]]].
  unfold Body.on_finished.
  cbn [Body.clearTimeout Body.abort Body.accum Body.accumBytes].
  rewrite H3, H2. unfold Body.Buffer_concat.
  destruct (N.ltb_spec kMaxLength
              (N.of_nat (List.length (Body.payload chunks)))); [|lia].
  unfold Body.reject, Body.clearTimeout. cbn [Body.settled].
  now rewrite H4.
Qed.

Lemma stream_too_long_for_a_buffer_witness :
  let s := Body.Readable
             [Body.ev_data (Some [x68; x65]); Body.ev_data (Some [x6c]);
              Body.ev_end] Body.no_methods in
  let b := Body.new (Body.a_Stream s) 0 0 in
  exists cause,
    Body.consumeBody 2 b None
    = (used b, Body.rejected (BodySystemError cause))
    /\ exists m, cause = RangeError m.
Proof.
  cbv zeta.
  apply (@stream_too_long_for_a_buffer 2
           (Body.new
              (Body.a_Stream
                 (Body.Readable
                    [Body.ev_data (Some [x68; x65]);
                     Body.ev_data (Some [x6c]); Body.ev_end]
                    Body.no_methods)) 0 0)
           (Body.Readable
              [Body.ev_data (Some [x68; x65]); Body.ev_data (Some [x6c]);
               Body.ev_end] Body.no_methods)
           [Some [x68; x65]; Some [x6c]] [] None).
  - reflexivity.
  - reflexivity.
  - reflexivity.
  - reflexivity.
  - left. reflexivity.
  - vm_compute. reflexivity.
  - exact I.
Defined.

(** X18. A stream that fails after its chunks, none of which goes over
    the limit, before the timer expires: the promise is rejected with
    the error itself when it is an abort error, and otherwise with a
    [FetchError] of type [system] that has the error as its cause. *)
Theorem stream_error_is_reported (kMaxLength : N) (b : Body.t)
  (s : Body.Stream) (chunks : list (option Body.bytes))
  (err : js_error) (rest : list Body.stream_event) (expiry : option nat) :
  Body.bodyUsed b = false ->
  Body.error (Body.INTERNALS b) = None ->
  source_of (Body.get_body b) = Some s ->
  Body.events s = List.map Body.ev_data chunks ++ Body.ev_error err :: rest ->
  Body.size b = 0%N
  \/ (N.of_nat (List.length (Body.payload chunks)) <= Body.size b)%N ->
  match armed b expiry with
  | Some m => List.length chunks < m
  | None => True
  end ->
  Body.consumeBody kMaxLength b expiry
  = (used b,
     Body.rejected
       (if Body.isAbortError err then err else BodySystemError err)).
Proof.
  intros Hu He Hs Hev Hsize Ht.
  rewrite (@consumeBody_of_source kMaxLength b s expiry Hu He Hs), Hev.
  f_equal.
  rewrite run_to_the_end by (auto; discriminate).
  destruct (@read_chunks b chunks Hsize) as [H1 [H2 [H3 [H4 H5]]]].
  unfold Body.on_finished.
  destruct (Body.isAbortError err);
    unfold Body.reject, Body.set_abort, Body.clearTimeout;
    cbn [Body.settled]; now rewrite H4.
Qed.

Lemma stream_error_is_reported_witness :
  let s := Body.Readable
             [Body.ev_data (Some [x68]);
              Body.ev_error (Error (other_message "socket hang up"))]
             Body.no_methods in
  let b := Body.new (Body.a_Stream s) 0 0 in
  Body.consumeBody 4294967296 b None
  = (used b,
     Body.rejected
       (BodySystemError (Error (other_message "socket hang up")))).
Proof.
  cbv zeta.
  apply (@stream_error_is_reported 4294967296
           (Body.new
              (Body.a_Stream
                 (Body.Readable
                    [Body.ev_data (Some [x68]);
                     Body.ev_error (Error (other_message "socket hang up"))]
                    Body.no_methods)) 0 0)
           (Body.Readable
              [Body.ev_data (Some [x68]);
               Body.ev_error (Error (other_message "socket hang up"))]
              Body.no_methods)
           [Some [x68]] (Error (other_message "socket hang up")) [] None).
  - reflexivity.
  - reflexivity.
  - reflexivity.
  - reflexivity.
  - left. reflexivity.
  - exact I.
Defined.

(** X19. A stream that is too slow: when the timer expires while chunks
    are still read, or after the last chunk of a stream that neither
    ends nor fails, and no chunk read until then goes over the limit,
    the promise is rejected with [BodyTimeout]. *)
Theorem slow_stream_times_out (kMaxLength : N) (b : Body.t)
  (s : Body.Stream) (chunks : list (option Body.bytes))
  (rest : list Body.stream_event) (expiry : option nat) (m : nat) :
  Body.bodyUsed b = false ->
  Body.error (Body.INTERNALS b) = None ->
  source_of (Body.get_body b) = Some s ->
  Body.events s = List.map Body.ev_data chunks ++ rest ->
  armed b expiry = Some m ->
  m <= List.length chunks \/ rest = [] ->
  Body.size b = 0%N
  \/ (N.of_nat (List.length (Body.payload (List.firstn m chunks)))
      <= Body.size b)%N ->
  Body.consumeBody kMaxLength b expiry = (used b, Body.rejected BodyTimeout).
Proof.
  intros Hu He Hs Hev Ha Hm Hsize.
  rewrite (@consumeBody_of_source kMaxLength b s expiry Hu He Hs), Hev, Ha.
  f_equal.
  assert (X : forall d, Body.settled d = Body.pending ->
            Body.settled
              (Body.on_finished kMaxLength (Body.on_timeout d)
                 (Some (FetchError body_timeout None)))
            = Body.rejected BodyTimeout).
  { intros d Hd. unfold Body.on_finished, Body.on_timeout.
    cbn [Body.isAbortError].
    unfold Body.reject, Body.destroy, Body.set_abort, Body.clearTimeout.
    cbn [Body.settled]. rewrite Hd. reflexivity. }
  destruct (@read_chunks b (List.firstn m chunks) Hsize)
    as [_ [_ [_ [H4 _]]]].
  assert (C : m <= List.length chunks \/ List.length chunks < m) by lia.
  destruct C as [Hle|Hgt].
  - rewrite <- (firstn_skipn m chunks) at 1.
    rewrite map_app, <- app_assoc.
    rewrite run_chunks by (rewrite firstn_length_le; auto).
    rewrite firstn_length_le by exact Hle.
    cbn [option_map]. replace (m - m) with 0 by lia.
    destruct (List.map Body.ev_data (List.skipn m chunks) ++ rest);
      now apply X.
  - destruct Hm as [Hm| ->]; [lia|].
    rewrite firstn_all2 in H4 by lia.
    rewrite run_chunks by lia. cbn [option_map].
    destruct (m - List.length chunks) as [|n] eqn:E; [lia|].
    now apply X.
Qed.

Lemma slow_stream_times_out_witness :
  let s := Body.Readable
             [Body.ev_data (Some [x68]); Body.ev_data (Some [x65]);
              Body.ev_end] Body.no_methods in
  let b := Body.new (Body.a_Stream s) 0 50 in
  Body.consumeBody 4294967296 b (Some 1)
  = (used b, Body.rejected BodyTimeout).
Proof.
  cbv zeta.
  apply (@slow_stream_times_out 4294967296
           (Body.new
              (Body.a_Stream
                 (Body.Readable
                    [Body.ev_data (Some [x68]); Body.ev_data (Some [x65]);
                     Body.ev_end] Body.no_methods)) 0 50)
           (Body.Readable
              [Body.ev_data (Some [x68]); Body.ev_data (Some [x65]);
               Body.ev_end] Body.no_methods)
           [Some [x68]; Some [x65]] [Body.ev_end] (Some 1) 1).
  - reflexivity.
  - reflexivity.
  - reflexivity.
  - reflexivity.
  - reflexivity.
  - left. simpl. lia.
  - left. reflexivity.
Defined.

(** X20. Without a timeout, a stream that stops after its chunks and
    neither ends nor fails leaves the promise pending, as long as no
    chunk goes over the limit. *)
Theorem silent_stream_stays_pending (kMaxLength : N) (b : Body.t)
  (s : Body.Stream) (chunks : list (option Body.bytes))
  (expiry : option nat) :
  Body.bodyUsed b = false ->
  Body.error (Body.INTERNALS b) = None ->
  source_of (Body.get_body b) = Some s ->
  Body.events s = List.map Body.ev_data chunks ->
  Body.timeout b = 0%N ->
  Body.size b = 0%N
  \/ (N.of_nat (List.length (Body.payload chunks)) <= Body.size b)%N ->
  Body.consumeBody kMaxLength b expiry = (used b, Body.pending).
Proof.
  intros Hu He Hs Hev Ht Hsize.
  rewrite (@consumeBody_of_source kMaxLength b s expiry Hu He Hs), Hev.
  f_equal. unfold armed. rewrite Ht. cbn [N.eqb negb].
  rewrite <- (app_nil_r (List.map Body.ev_data chunks)).
  rewrite run_chunks by exact I. cbn [option_map Body.run].
  now destruct (@read_chunks b chunks Hsize) as [_ [_ [_ [H4 _]]]].
Qed.

Lemma silent_stream_stays_pending_witness :
  let s := Body.Readable [Body.ev_data (Some [x68])] Body.no_methods in
  let b := Body.new (Body.a_Stream s) 0 0 in
  Body.consumeBody 4294967296 b None = (used b, Body.pending).
Proof.
  cbv zeta.
  apply (@silent_stream_stays_pending 4294967296
           (Body.new
              (Body.a_Stream
                 (Body.Readable [Body.ev_data (Some [x68])]
                    Body.no_methods)) 0 0)
           (Body.Readable [Body.ev_data (Some [x68])] Body.no_methods)
           [Some [x68]] None).
  - reflexivity.
  - reflexivity.
  - reflexivity.
  - reflexivity.
  - reflexivity.
  - left. reflexivity.
Defined.

(** X21. An error the stream emits before the body is read is recorded
    by the listener of the constructor, and the first drain is rejected
    with it without reading the stream: the error itself when it is an
    abort error, otherwise a [FetchError] of type [system] that has it
    as its cause.  The instance is marked as used all the same. *)
Theorem recorded_error_rejects_the_drain (kMaxLength : N) (b : Body.t)
  (err : js_error) (expiry : option nat) :
  Body.bodyUsed b = false ->
  Body.instanceof_Stream (Body.get_body b) = true ->
  let b' := Body.on_error b err in
  Body.consumeBody kMaxLength b' expiry
  = (used b',
     Body.rejected
       (if Body.isAbortError err then err else BodySystemError err)) /\
  Body.bodyUsed (used b') = true /\
  Body.get_body (used b') = Body.get_body b.
Proof.
  intros Hu Hs b'. subst b'.
  unfold Body.bodyUsed, Body.get_body in *. unfold Body.on_error.
  rewrite Hs.
  unfold Body.consumeBody, used.
  cbn [Body.with_internals Body.INTERNALS Body.disturbed Body.error
       Body.body].
  rewrite Hu. now repeat split.
Qed.

Lemma recorded_error_rejects_the_drain_witness :
  let b := Body.new (Body.a_Stream (Body.Readable [] Body.no_methods)) 0 0 in
  let b' := Body.on_error b AbortError in
  Body.consumeBody 4294967296 b' None = (used b', Body.rejected AbortError)
  /\ Body.bodyUsed (used b') = true
  /\ Body.get_body (used b') = Body.get_body b.
Proof.
  cbv zeta.
  apply (@recorded_error_rejects_the_drain 4294967296
           (Body.new (Body.a_Stream (Body.Readable [] Body.no_methods)) 0 0)
           AbortError None).
  - reflexivity.
  - reflexivity.
Defined.

(** ** Bodies held in memory, and the shape of a body *)




(** ** [clone] and [writeToStream] on streams *)

Section Teeing.

Import Body.

Variable kMaxLength : N.

(** Nothing is read after the end of a stream. *)
Lemma run_until_end (b : t) (chunks : list (option bytes))
  (rest rest' : list stream_event) (timer : option nat) (d : drain) :
  run kMaxLength b timer (List.map ev_data chunks ++ ev_end :: rest) d
  = run kMaxLength b timer (List.map ev_data chunks ++ ev_end :: rest') d.
Proof.
  revert timer d. induction chunks as [|c chunks IH]; intros timer d.
  - destruct timer as [[|m]|]; reflexivity.
  - destruct timer as [[|m]|]; [reflexivity| |]; cbn [map app run];
      apply IH.
Qed.

Lemma chunks_of_piped (emits : list stream_event) :
  chunks_of (piped emits) = chunks_of emits.
Proof.
  induction emits as [|[c| |err] rest IH]; cbn; [reflexivity| |reflexivity..].
  now rewrite IH.
Qed.

Lemma piped_until_end (chunks : list (option bytes))
  (rest : list stream_event) :
  piped (List.map ev_data chunks ++ ev_end :: rest)
  = List.map ev_data chunks ++ [ev_end].
Proof.
  induction chunks as [|c chunks IH]; [reflexivity|].
  cbn [map app piped]. now rewrite IH.
Qed.

Lemma piped_chunks (chunks : list (option bytes)) :
  piped (List.map ev_data chunks) = List.map ev_data chunks.
Proof.
  induction chunks as [|c chunks IH]; [reflexivity|].
  cbn [map piped]. now rewrite IH.
Qed.

Lemma pipe_until_end (chunks : list (option bytes))
  (rest : list stream_event) (dest : Writable) :
  pipe (List.map ev_data chunks ++ ev_end :: rest) dest
  = {| written := written dest ++ chunks; ended := true |}.
Proof.
  revert dest. induction chunks as [|c chunks IH]; intros dest.
  - cbn. now rewrite app_nil_r.
  - cbn [map app pipe]. rewrite IH. cbn [write written].
    now rewrite <- app_assoc.
Qed.

Variable wants_more : option N -> list (option bytes) -> bool.
Variable highWaterMark : option N.

(** A stream that takes every chunk does not hold the source back. *)
Lemma held_back_free (chunks : list (option bytes))
  (rest : list stream_event) (held : list (option bytes)) :
  (forall j, 0 < j <= List.length chunks ->
             wants_more highWaterMark (held ++ List.firstn j chunks) = true) ->
  held_back wants_more highWaterMark
    (List.map ev_data chunks ++ ev_end :: rest) held
  = List.map ev_data chunks ++ ev_end :: rest.
Proof.
  revert held. induction chunks as [|c chunks IH]; intros held H;
    [reflexivity|].
  cbn [map app held_back].
  replace (wants_more highWaterMark (held ++ [c])) with true
    by (symmetry; apply (H 1); cbn [List.length]; lia).
  f_equal. apply IH. intros j Hj. rewrite <- app_assoc.
  apply (H (S j)). cbn [List.length]. lia.
Qed.

(** A stream that does not take a chunk stops the source after it. *)
Lemma held_back_stall (pre : list (option bytes)) (c : option bytes)
  (post : list (option bytes)) (rest : list stream_event)
  (held : list (option bytes)) :
  (forall j, 0 < j <= List.length pre ->
             wants_more highWaterMark (held ++ List.firstn j pre) = true) ->
  wants_more highWaterMark (held ++ pre ++ [c]) = false ->
  held_back wants_more highWaterMark
    (List.map ev_data (pre ++ c :: post) ++ rest) held
  = List.map ev_data (pre ++ [c]).
Proof.
  revert held. induction pre as [|x pre IH]; intros held H R.
  - cbn [map app held_back]. cbn [app] in R. now rewrite R.
  - cbn [map app held_back].
    replace (wants_more highWaterMark (held ++ [x])) with true
      by (symmetry; apply (H 1); cbn [List.length]; lia).
    f_equal. apply IH.
    + intros j Hj. rewrite <- app_assoc.
      apply (H (S j)). cbn [List.length]. lia.
    + now rewrite <- app_assoc.
Qed.

End Teeing.

(** ** C9: [clone] *)

(** Two chunks and the end, cloned with a [highWaterMark] of one byte.
    When both streams are read each drains to the four bytes; when the
    stream returned is read by nobody, it does not take more after the
    first chunk, the source is paused, and the drain of the instance
    stays pending. *)
Lemma unread_branch_holds_the_other_back :
  let s := Body.Readable
             [Body.ev_data (Some [x61; x62]); Body.ev_data (Some [x63; x64]);
              Body.ev_end] Body.no_methods in
  let instance := Body.new (Body.a_Stream s) 0 0 in
  let p1 := Body.PassThrough 0 (Some 1%N) s in
  let p2 := Body.PassThrough 1 (Some 1%N) s in
  let kept :=
    Body.with_internals instance
      {| Body.body := Body.a_Stream p1; Body.disturbed := false;
         Body.error := None |} in
  Body.clone instance (Some 1%N) = Normal (kept, Body.a_Stream p2) /\
  snd (Body.consumeBody 4294967296 instance None)
  = Body.fulfilled [x61; x62; x63; x64] /\
  drain_of 4294967296 kept None (Body.events p1)
  = Body.fulfilled [x61; x62; x63; x64] /\
  Body.write_takes_more (Some 1%N) [Some [x61; x62]] = false /\
  Body.alone Body.write_takes_more p1 = [Body.ev_data (Some [x61; x62])] /\
  drain_of 4294967296 kept None (Body.alone Body.write_takes_more p1)
  = Body.pending.
Proof.
  cbv zeta. repeat split.
Qed.

(** C9 (amended). [clone] throws, and then [CloneAfterConsumption],
    exactly when [bodyUsed] is true.  Otherwise a body that is not a
    stream, and a stream with a [getBoundary] method, are returned as
    they are and the instance is unchanged; any other stream [s] is piped
    into two [PassThrough] streams made with the given [highWaterMark],
    two different objects: the instance keeps the first, the second is
    returned, and while nothing holds the source back both emit the
    chunks of [s].  The two hang on the one source: a stream of the two
    that is read alone emits all that the source emits as long as the
    other takes every chunk; when the other does not take a chunk, the
    stream that is read emits the chunks up to that one and nothing
    more, not even the end, and with no limit and no timeout its drain
    stays pending. *)
Theorem clone_by_source (kMaxLength : N)
  (wants_more : option N -> list (option Body.bytes) -> bool)
  (instance : Body.t) (highWaterMark : option N) :
  (Body.clone instance highWaterMark = Throw CloneAfterConsumption
   <-> Body.bodyUsed instance = true) /\
  (forall e, Body.clone instance highWaterMark = Throw e ->
             e = CloneAfterConsumption) /\
  (Body.bodyUsed instance = false ->
   match Body.get_body instance with
   | Body.a_Stream s =>
       match Body.getBoundary (Body.methods_of s) with
       | Some _ =>
           Body.clone instance highWaterMark
           = Normal (instance, Body.a_Stream s)
       | None =>
           let p1 := Body.PassThrough 0 highWaterMark s in
           let p2 := Body.PassThrough 1 highWaterMark s in
           let kept :=
             Body.with_internals instance
               {| Body.body := Body.a_Stream p1;
                  Body.disturbed := false;
                  Body.error := Body.error (Body.INTERNALS instance) |} in
           Body.clone instance highWaterMark
           = Normal (kept, Body.a_Stream p2)
           /\ p1 <> p2
           /\ Body.stream_data p1 = Body.stream_data s
           /\ Body.stream_data p2 = Body.stream_data s
           /\ Body.alone wants_more p1 = Body.alone wants_more p2
           /\ (forall chunks rest,
                 Body.events s
                 = List.map Body.ev_data chunks ++ Body.ev_end :: rest ->
                 (forall j, 0 < j <= List.length chunks ->
                    wants_more highWaterMark (List.firstn j chunks) = true) ->
                 Body.alone wants_more p1 = Body.events p1)
           /\ (forall pre c post rest,
                 Body.events s
                 = List.map Body.ev_data (pre ++ c :: post) ++ rest ->
                 (forall j, 0 < j <= List.length pre ->
                    wants_more highWaterMark (List.firstn j pre) = true) ->
                 wants_more highWaterMark (pre ++ [c]) = false ->
                 Body.alone wants_more p1
                 = List.map Body.ev_data (pre ++ [c])
                 /\ (Body.size instance = 0%N ->
                     Body.timeout instance = 0%N ->
                     forall expiry,
                       drain_of kMaxLength kept expiry
                         (Body.alone wants_more p1) = Body.pending))
       end
   | body => Body.clone instance highWaterMark = Normal (instance, body)
   end).
Proof.
  unfold Body.clone, Body.bodyUsed, Body.get_body.
  destruct (Body.disturbed (Body.INTERNALS instance)) eqn:D.
  - split; [now split|]. split; [now intros e [= <-]|discriminate].
  - split; [|split].
    + split; [|discriminate].
      destruct (Body.body (Body.INTERNALS instance)) as
        [| |s|s|b|b|b|b o l|s|s m]; try discriminate.
      cbn. destruct (Body.getBoundary (Body.methods_of s)); discriminate.
    + intros e.
      destruct (Body.body (Body.INTERNALS instance)) as
        [| |s|s|b|b|b|b o l|s|s m]; try discriminate.
      cbn. destruct (Body.getBoundary (Body.methods_of s)); discriminate.
    + intros _.
      destruct (Body.body (Body.INTERNALS instance)) as
        [| |s|s|b|b|b|b o l|s|s m]; try reflexivity.
      cbn [Body.methods].
      destruct (Body.getBoundary (Body.methods_of s)); [reflexivity|].
      cbn zeta.
      split; [reflexivity|]. split; [discriminate|].
      split; [unfold Body.stream_data; cbn [Body.events];
              apply chunks_of_piped|].
      split; [unfold Body.stream_data; cbn [Body.events];
              apply chunks_of_piped|].
      split; [reflexivity|]. split.
      * intros chunks rest Hev Hfree. cbn [Body.alone Body.events].
        rewrite Hev. f_equal. apply held_back_free. exact Hfree.
      * intros pre c post rest Hev Hfree Hstop.
        assert (A : Body.alone wants_more
                      (Body.PassThrough 0 highWaterMark s)
                    = List.map Body.ev_data (pre ++ [c])).
        { cbn [Body.alone]. rewrite Hev.
          rewrite (held_back_stall wants_more highWaterMark pre c post
                     rest []); [apply piped_chunks|exact Hfree|exact Hstop]. }
        split; [exact A|].
        intros Hsize Htimeout expiry. rewrite A.
        unfold drain_of, armed.
        cbn [Body.timeout Body.with_internals]. rewrite Htimeout.
        cbn [N.eqb negb].
        rewrite <- (app_nil_r (List.map Body.ev_data (pre ++ [c]))).
        rewrite run_chunks by exact I. cbn [option_map Body.run].
        match goal with
        | |- Body.settled
               (List.fold_left (Body.on_data (used ?b)) _ (listening ?b))
             = _ =>
            now destruct (@read_chunks b (pre ++ [c]) (or_introl Hsize))
              as [_ [_ [_ [H4 _]]]]
        end.
Qed.

(** A stream that was not read, cloned with a [highWaterMark] of 16384:
    the instance keeps the first [PassThrough], the second is
    returned. *)
Lemma clone_by_source_witness :
  let s := Body.Readable [Body.ev_data (Some [x68; x69]); Body.ev_end]
             Body.no_methods in
  let instance := Body.new (Body.a_Stream s) 0 0 in
  Body.bodyUsed instance = false /\
  Body.clone instance (Some 16384%N)
  = Normal
      (Body.with_internals instance
         {| Body.body := Body.a_Stream (Body.PassThrough 0 (Some 16384%N) s);
            Body.disturbed := false; Body.error := None |},
       Body.a_Stream (Body.PassThrough 1 (Some 16384%N) s)).
Proof.
  split; [reflexivity|].
  exact (proj1 (proj2 (proj2
           (clone_by_source 4294967296 Body.write_takes_more
              (Body.new
                 (Body.a_Stream
                    (Body.Readable
                       [Body.ev_data (Some [x68; x69]); Body.ev_end]
                       Body.no_methods)) 0 0) (Some 16384%N))) eq_refl)).
Defined.

(** X24. [clone] of a stream that ends (after any chunks, with no error
    before its end): the instance, which now holds the first
    [PassThrough], and a body made from the second, which is returned,
    with the same options, both drain to what the instance would have
    drained to without the clone, when both are read; and so does each
    of them read alone, as long as the other takes every chunk. *)
Theorem cloned_stream_drains_alike (kMaxLength : N)
  (wants_more : option N -> list (option Body.bytes) -> bool) (b : Body.t)
  (s : Body.Stream) (chunks : list (option Body.bytes))
  (rest : list Body.stream_event) (highWaterMark : option N)
  (expiry : option nat) :
  Body.bodyUsed b = false ->
  Body.error (Body.INTERNALS b) = None ->
  Body.get_body b = Body.a_Stream s ->
  Body.getBoundary (Body.methods_of s) = None ->
  Body.events s = List.map Body.ev_data chunks ++ Body.ev_end :: rest ->
  let p1 := Body.PassThrough 0 highWaterMark s in
  let p2 := Body.PassThrough 1 highWaterMark s in
  let kept :=
    Body.with_internals b
      {| Body.body := Body.a_Stream p1; Body.disturbed := false;
         Body.error := None |} in
  let returned := Body.new (Body.a_Stream p2) (Body.size b) (Body.timeout b) in
  Body.clone b highWaterMark = Normal (kept, Body.a_Stream p2) /\
  p1 <> p2 /\
  Body.consumeBody kMaxLength kept expiry
  = (used kept, snd (Body.consumeBody kMaxLength b expiry)) /\
  Body.consumeBody kMaxLength returned expiry
  = (used returned, snd (Body.consumeBody kMaxLength b expiry)) /\
  ((forall j, 0 < j <= List.length chunks ->
      wants_more highWaterMark (List.firstn j chunks) = true) ->
   drain_of kMaxLength kept expiry (Body.alone wants_more p1)
   = snd (Body.consumeBody kMaxLength b expiry)
   /\ drain_of kMaxLength returned expiry (Body.alone wants_more p2)
      = snd (Body.consumeBody kMaxLength b expiry)).
Proof.
  intros Hu He Hb Hm Hev p1 p2 kept returned.
  assert (Hs : source_of (Body.get_body b) = Some s) by now rewrite Hb.
  assert (Hp : Body.events p1
               = List.map Body.ev_data chunks ++ [Body.ev_end]).
  { unfold p1. cbn [Body.events]. rewrite Hev. apply piped_until_end. }
  assert (D : snd (Body.consumeBody kMaxLength b expiry)
              = drain_of kMaxLength kept expiry (Body.events p1)).
  { rewrite (@consumeBody_of_source kMaxLength b s expiry Hu He Hs).
    cbn [snd]. rewrite Hp, Hev.
    rewrite (run_until_end kMaxLength _ chunks rest []).
    reflexivity. }
  split.
  { unfold Body.clone. rewrite Hb, Hu. cbn [Body.methods]. rewrite Hm.
    unfold kept. unfold Body.bodyUsed in Hu. now rewrite He, Hu. }
  split; [discriminate|].
  split.
  { rewrite (@consumeBody_of_source kMaxLength kept p1 expiry);
      [|reflexivity|reflexivity|reflexivity].
    now rewrite D. }
  split.
  { rewrite (@consumeBody_of_source kMaxLength returned p2 expiry);
      [|reflexivity|reflexivity|reflexivity].
    now rewrite D. }
  intros Hfree.
  assert (A : Body.alone wants_more p1 = Body.events p1).
  { unfold p1. cbn [Body.alone Body.events]. rewrite Hev. f_equal.
    now apply held_back_free. }
  split; [now rewrite A, D|].
  change (Body.alone wants_more p2) with (Body.alone wants_more p1).
  now rewrite A, D.
Qed.

Lemma cloned_stream_drains_alike_witness :
  let s := Body.Readable
             [Body.ev_data (Some [x68; x69]); Body.ev_end; Body.ev_end]
             Body.no_methods in
  let b := Body.new (Body.a_Stream s) 0 0 in
  let p1 := Body.PassThrough 0 (Some 16384%N) s in
  let p2 := Body.PassThrough 1 (Some 16384%N) s in
  let kept :=
    Body.with_internals b
      {| Body.body := Body.a_Stream p1; Body.disturbed := false;
         Body.error := None |} in
  let returned := Body.new (Body.a_Stream p2) (Body.size b) (Body.timeout b) in
  Body.clone b (Some 16384%N) = Normal (kept, Body.a_Stream p2) /\
  p1 <> p2 /\
  Body.consumeBody 4294967296 kept None
  = (used kept, snd (Body.consumeBody 4294967296 b None)) /\
  Body.consumeBody 4294967296 returned None
  = (used returned, snd (Body.consumeBody 4294967296 b None)) /\
  ((forall j, 0 < j <= 1 ->
      Body.write_takes_more (Some 16384%N)
        (List.firstn j [Some [x68; x69]]) = true) ->
   drain_of 4294967296 kept None (Body.alone Body.write_takes_more p1)
   = snd (Body.consumeBody 4294967296 b None)
   /\ drain_of 4294967296 returned None
        (Body.alone Body.write_takes_more p2)
      = snd (Body.consumeBody 4294967296 b None)).
Proof.
  cbv zeta.
  apply (@cloned_stream_drains_alike 4294967296 Body.write_takes_more
           (Body.new
              (Body.a_Stream
                 (Body.Readable
                    [Body.ev_data (Some [x68; x69]); Body.ev_end;
                     Body.ev_end] Body.no_methods)) 0 0)
           (Body.Readable
              [Body.ev_data (Some [x68; x69]); Body.ev_end; Body.ev_end]
              Body.no_methods)
           [Some [x68; x69]] [Body.ev_end] (Some 16384%N) None).
  - reflexivity.
  - reflexivity.
  - reflexivity.
  - reflexivity.
  - reflexivity.
Defined.

(** X25. [writeToStream] on a stream (or the stream of a blob) that
    ends: the destination receives the chunks in order after what it
    held, and is ended; with no limit, no timeout and a total that fits
    a buffer, the bytes written are the bytes [consumeBody] resolves
    to. *)
Theorem written_is_what_drains (kMaxLength : N) (b : Body.t)
  (s : Body.Stream) (chunks : list (option Body.bytes))
  (rest : list Body.stream_event) (expiry : option nat)
  (dest : Body.Writable) :
  Body.bodyUsed b = false ->
  Body.error (Body.INTERNALS b) = None ->
  source_of (Body.get_body b) = Some s ->
  Body.events s = List.map Body.ev_data chunks ++ Body.ev_end :: rest ->
  Body.size b = 0%N ->
  Body.timeout b = 0%N ->
  (N.of_nat (List.length (Body.payload chunks)) <= kMaxLength)%N ->
  Body.writeToStream dest b
  = Normal {| Body.written := Body.written dest ++ chunks;
              Body.ended := true |} /\
  Body.consumeBody kMaxLength b expiry
  = (used b, Body.fulfilled (Body.payload chunks)).
Proof.
  intros Hu He Hs Hev Hsize Ht Hmax. split.
  - unfold Body.writeToStream.
    destruct (Body.get_body b) as [| |x|x|bl|x|x|x o l|st|x m];
      try discriminate; injection Hs as <-; cbn [Body.is_null];
      rewrite Hev; now rewrite pipe_until_end.
  - rewrite (@consumeBody_of_source kMaxLength b s expiry Hu He Hs), Hev.
    f_equal. unfold armed. rewrite Ht. cbn [N.eqb negb].
    rewrite run_to_the_end by (auto; discriminate).
    assert (Hfit : Body.size b = 0%N
                   \/ (N.of_nat (List.length (Body.payload chunks))
                       <= Body.size b)%N) by now left.
    destruct (@read_chunks b chunks Hfit) as [H1 [H2 [H3 [H4 H5]]]].
    unfold Body.on_finished.
    cbn [Body.clearTimeout Body.abort Body.accum Body.accumBytes].
    rewrite H3, H2, <- H1, Buffer_concat_exact by now rewrite H1.
    unfold Body.resolve, Body.clearTimeout. cbn [Body.settled].
    now rewrite H4.
Qed.

Lemma written_is_what_drains_witness :
  let s := Body.Readable
             [Body.ev_data (Some [x68]); Body.ev_data (Some [x69]);
              Body.ev_end] Body.no_methods in
  let b := Body.new
             (Body.a_Blob {| Body.blob_type := lit "text/plain";
                             Body.blob_size := 2;
                             Body.blob_stream := s |}) 0 0 in
  Body.writeToStream {| Body.written := []; Body.ended := false |} b
  = Normal {| Body.written := [Some [x68]; Some [x69]];
              Body.ended := true |} /\
  Body.consumeBody 4294967296 b None
  = (used b, Body.fulfilled [x68; x69]).
Proof.
  cbv zeta.
  apply (@written_is_what_drains 4294967296
           (Body.new
              (Body.a_Blob
                 {| Body.blob_type := lit "text/plain";
                    Body.blob_size := 2;
                    Body.blob_stream :=
                      Body.Readable
                        [Body.ev_data (Some [x68]);
                         Body.ev_data (Some [x69]); Body.ev_end]
                        Body.no_methods |}) 0 0)
           (Body.Readable
              [Body.ev_data (Some [x68]); Body.ev_data (Some [x69]);
               Body.ev_end] Body.no_methods)
           [Some [x68]; Some [x69]] [] None
           {| Body.written := []; Body.ended := false |}).
  - reflexivity.
  - reflexivity.
  - reflexivity.
  - reflexivity.
  - reflexivity.
  - reflexivity.
  - vm_compute. discriminate.
Defined.


(** ** The accessors *)

(** X26. Each accessor settles as the drain does: it marks the instance
    as [consumeBody] does, stays pending with it, and is rejected with
    the same error; when the drain is fulfilled with some bytes,
    [buffer] and [arrayBuffer] give these bytes, [text] their decoding,
    [json] what [JSON.parse] returns for the decoding, or a rejection
    with what it throws, and [blob] a blob of these bytes whose type is
    in lower case. *)
Theorem accessors_follow_the_drain (kMaxLength : N)
  (Buffer_toString : Body.bytes -> jsstring) (json : Type)
  (JSON_parse : jsstring -> completion json) (b : Body.t)
  (expiry : option nat) :
  let drained := Body.consumeBody kMaxLength b expiry in
  let call := Body.call kMaxLength Buffer_toString JSON_parse in
  (forall a, fst (call a b expiry) = fst drained) /\
  (forall a err,
     snd drained = Body.rejected err ->
     snd (call a b expiry) = Body.rejected err) /\
  (forall a,
     snd drained = Body.pending -> snd (call a b expiry) = Body.pending) /\
  (forall content,
     snd drained = Body.fulfilled content ->
     snd (call Body.acc_buffer b expiry)
     = Body.fulfilled (Body.a_buffer content) /\
     snd (call Body.acc_arrayBuffer b expiry)
     = Body.fulfilled (Body.an_arrayBuffer content) /\
     snd (call Body.acc_text b expiry)
     = Body.fulfilled (Body.a_text (Buffer_toString content)) /\
     snd (call Body.acc_json b expiry)
     = match JSON_parse (Buffer_toString content) with
       | Normal v => Body.fulfilled (Body.a_json v)
       | Throw e => Body.rejected e
       end /\
     exists type,
       snd (call Body.acc_blob b expiry)
       = Body.fulfilled (Body.a_blob (toLowerCase type) content)).
Proof.
  intros drained call. subst drained call.
  assert (B : exists type,
            Body.blob kMaxLength json b expiry
            = (fst (Body.consumeBody kMaxLength b expiry),
               Body.and_then (snd (Body.consumeBody kMaxLength b expiry))
                 (fun buf => Normal (Body.a_blob (toLowerCase type) buf)))).
  { unfold Body.blob.
    destruct (Body.headers b) as [h|].
    - destruct (get_content_type_total h) as [v ->]. cbn [bind].
      eexists. now destruct (Body.consumeBody kMaxLength b expiry).
    - cbn [bind].
      eexists. now destruct (Body.consumeBody kMaxLength b expiry). }
  destruct B as [type B].
  split; [|split; [|split]].
  - intros a. destruct a; cbn [Body.call]; [| now rewrite B | | |];
      unfold Body.arrayBuffer, Body.json_, Body.text, Body.buffer;
      now destruct (Body.consumeBody kMaxLength b expiry).
  - intros a err H. destruct a; cbn [Body.call]; [| now rewrite B, H | | |];
      unfold Body.arrayBuffer, Body.json_, Body.text, Body.buffer;
      destruct (Body.consumeBody kMaxLength b expiry) as [b' p];
      cbn [snd] in *; now rewrite H.
  - intros a H. destruct a; cbn [Body.call]; [| now rewrite B, H | | |];
      unfold Body.arrayBuffer, Body.json_, Body.text, Body.buffer;
      destruct (Body.consumeBody kMaxLength b expiry) as [b' p];
      cbn [snd] in *; now rewrite H.
  - intros content H. cbn [Body.call]. rewrite B.
    unfold Body.arrayBuffer, Body.json_, Body.text, Body.buffer.
    destruct (Body.consumeBody kMaxLength b expiry) as [b' p].
    cbn [snd] in *. rewrite H. cbn [Body.and_then bind].
    repeat split.
    + now destruct (JSON_parse (Buffer_toString content)).
    + now exists type.
Qed.

(** ** What the header list throws, and what [get] returns *)

(** X27. What the methods and the two loops of the constructor over the
    pairs throw: [append] and [set], nothing but the error for the name
    or the value they were given; [delete], [has], [getAll] and [get],
    nothing but the error for the name; the loop that checks the pairs of
    a sequence, nothing but the tuple error; the loop that validates the
    pairs and lowercases the names, nothing but the error for the name
    or the value of a pair all of whose predecessors are legal. *)
Theorem headers_throw_their_own_errors :
  (forall h name value e,
     Headers.append h name value = Throw e
     \/ Headers.set h name value = Throw e ->
     e = InvalidHeaderName name \/ e = InvalidHeaderValue value) /\
  (forall h name e,
     Headers.delete h name = Throw e \/ Headers.has h name = Throw e
     \/ Headers.getAll h name = Throw e \/ Headers.get h name = Throw e ->
     e = InvalidHeaderName name) /\
  (forall pairs e,
     mapM Headers.check_tuple pairs = Throw e ->
     e = TypeError pair_must_be_a_tuple) /\
  (forall result e,
     mapM Headers.validate_and_lowercase result = Throw e ->
     exists before name value after,
       result = before ++ (name, value) :: after
       /\ Forall (fun p => Headers.validateName (fst p) = Normal tt
                           /\ Headers.validateValue (snd p) = Normal tt)
            before
       /\ (e = InvalidHeaderName name \/ e = InvalidHeaderValue value)).
Proof.
  assert (V : forall p e,
            Headers.validate_and_lowercase p = Throw e ->
            e = InvalidHeaderName (fst p) \/ e = InvalidHeaderValue (snd p)).
  { intros p e. unfold Headers.validate_and_lowercase.
    destruct (Headers.validateName (fst p)) as [[]|e'] eqn:Hn; cbn [bind].
    - destruct (Headers.validateValue (snd p)) as [[]|e''] eqn:Hv;
        cbn [bind]; [discriminate|].
      intros [= <-]. right. now apply validateValue_Throw.
    - intros [= <-]. left. now apply validateName_Throw. }
  split; [|split; [|split]].
  - intros h name value e.
    unfold Headers.append, Headers.set.
    destruct (Headers.validateName name) as [[]|e'] eqn:Hn; cbn [bind].
    + destruct (Headers.validateValue value) as [[]|e''] eqn:Hv;
        cbn [bind]; [intros [|]; discriminate|].
      intros [[= <-]|[= <-]]; right; now apply validateValue_Throw.
    + intros [[= <-]|[= <-]]; left; now apply validateName_Throw.
  - intros h name e.
    unfold Headers.get, Headers.delete, Headers.has, Headers.getAll.
    destruct (Headers.validateName name) as [[]|e'] eqn:Hn; cbn [bind].
    + destruct (Nat.eqb _ 0); intros [|[|[|]]]; discriminate.
    + intros [[= <-]|[[= <-]|[[= <-]|[= <-]]]];
        now apply validateName_Throw.
  - intros pairs e C. apply mapM_Throw in C.
    destruct C as (pre & pair & post & _ & C & _).
    destruct pair as [|a [|b [|c pair]]]; cbn in C; congruence.
  - intros result e H. apply mapM_Throw in H.
    destruct H as (pre & [n v] & post & -> & H & Hpre).
    exists pre, n, v, post. split; [reflexivity|]. split.
    + eapply Forall_impl; [|exact Hpre].
      intros p [q Hq]. apply validate_and_lowercase_Normal in Hq.
      now destruct Hq as [? [? _]].
    + now apply (V (n, v)).
Qed.

Lemma join_Forall (P : N -> Prop) (sep : jsstring) (l : list jsstring) :
  Forall P sep -> Forall (Forall P) l -> Forall P (join sep l).
Proof.
  intros Hsep Hl. induction Hl as [|x l Hx Hl IH]; [constructor|].
  cbn [join]. destruct l as [|y l]; [exact Hx|].
  apply Forall_app. split; [exact Hx|].
  apply Forall_app. split; [exact Hsep|exact IH].
Qed.

(** X28. On a list that satisfies the invariant, what [get] returns is a
    legal value: it can be stored again, with [set] or [append], under
    any legal name. *)
Theorem get_returns_a_legal_value (h : Headers.t) (name value : jsstring) :
  well_formed h ->
  Headers.get h name = Normal (Some value) ->
  Headers.validateValue value = Normal tt /\
  (forall h' name',
     Headers.validateName name' = Normal tt ->
     (exists h'', Headers.set h' name' value = Normal h'')
     /\ exists h'', Headers.append h' name' value = Normal h'').
Proof.
  intros W G.
  assert (L : Headers.validateValue value = Normal tt).
  { unfold Headers.get, Headers.getAll in G.
    destruct (Headers.validateName name) as [[]|e]; [|discriminate].
    cbn [bind] in G.
    assert (F : Forall (Forall (fun c => Headers.header_unit c = true))
                  (URLSearchParams.getAll h (toLowerCase name))).
    { unfold URLSearchParams.getAll. apply Forall_forall.
      intros v Hv. apply in_map_iff in Hv. destruct Hv as [p [<- Hp]].
      apply filter_In in Hp. destruct Hp as [Hp _].
      unfold well_formed in W. rewrite Forall_forall in W.
      destruct (W p Hp) as [_ [_ Hvalue]].
      now apply validateValue_Normal. }
    assert (J : Forall (fun c => Headers.header_unit c = true)
                  (join (lit ", ")
                     (URLSearchParams.getAll h (toLowerCase name)))).
    { apply join_Forall; [|exact F]. repeat constructor. }
    destruct (Nat.eqb _ 0); [discriminate|]. injection G as <-.
    apply validateValue_Normal.
    destruct (Headers.content_encoding_regex name); [|exact J].
    unfold toLowerCase. apply Forall_map_iff.
    eapply Forall_impl; [|exact J]. apply lower_unit_header. }
  split; [exact L|].
  intros h' name' Hn. unfold Headers.set, Headers.append.
  rewrite Hn, L. cbn [bind]. split; eexists; reflexivity.
Qed.

Lemma get_returns_a_legal_value_witness :
  Headers.validateValue (lit "gzip, br") = Normal tt /\
  (forall h' name',
     Headers.validateName name' = Normal tt ->
     (exists h'', Headers.set h' name' (lit "gzip, br") = Normal h'')
     /\ exists h'', Headers.append h' name' (lit "gzip, br") = Normal h'').
Proof.
  apply (@get_returns_a_legal_value
           [(lit "content-encoding", lit "GZIP");
            (lit "content-encoding", lit "br")]
           (lit "Content-Encoding") (lit "gzip, br")).
  - repeat constructor.
  - reflexivity.
Defined.
